(** * ProductDiffer: the product differ of [assignment.py]

    A shallow embedding of [ProductDiffer] and the properties of the
    operation stream its [main] produces.

    - CSV rows are lists of strings, as [csv.reader] delivers them; a
      reader is the list of the rows it has not delivered yet.  Opening
      the two files and parsing their text belong to [open] and the [csv]
      module and are not modelled: [main] starts from the readers' rows.
    - A product is the two-key dict [dict(data={}, id=product[0])]; its
      ['data'] dict is a finite map from column name to cell.
    - Python exceptions are values of [exn]; a computation that may raise
      returns a [result].
    - [main] is a generator: its body is modelled both as the list of the
      triples it yields ([main_loops]) and as a resumable machine over the
      two product lists ([resume]), and the two are proved to agree.
    - The same source lines are embedded a second time at the level of
      Python objects ([convert_data_from_csv_heap], [prepare_data_heap],
      [resume_heap], [gen_next]): readers are iterated lazily and may
      fail, dicts and lists live in a heap, and a yielded triple refers to
      the live ['data'] dict.  That level is proved to show the consumer
      what the value level computes ([list_main_heap_refines]). *)

From stdpp Require Import gmap strings list fin_maps.

(** ** Data model *)

Inductive Operation := CREATE | UPDATE | DELETE.

#[global] Instance Operation_eq_dec : EqDecision Operation.
Proof. solve_decision. Defined.

(** [product_data]: the dict with the keys ['data'] and ['id']. *)
Record Product := { pdata : gmap string string; pid : string }.

#[global] Instance Product_eq_dec : EqDecision Product.
Proof. solve_decision. Defined.

(** The triples [main] yields: operation, id, data-or-[None]. *)
Definition operation : Type := Operation * string * option (gmap string string).

Definition op_kind (o : operation) : Operation := o.1.1.
Definition op_id (o : operation) : string := o.1.2.
Definition op_payload (o : operation) : option (gmap string string) := o.2.

(** ** Exceptions *)

(** StopIteration, IndexError and RuntimeError are what the code of this
    file raises itself; [CsvError] (csv.Error) and [UnicodeDecodeError]
    are what a csv reader raises while it is iterated; [TypeError] is a
    subscript on an object of the wrong kind. *)
Inductive exn :=
  | StopIteration | IndexError | RuntimeError
  | CsvError | UnicodeDecodeError | TypeError.

Inductive result (A : Type) := Ok (a : A) | Raise (e : exn).
Arguments Ok {A} a.
Arguments Raise {A} e.

#[global] Instance result_ret : MRet result := λ A a, Ok a.
#[global] Instance result_bind : MBind result := λ A B f m,
  match m with
  | Ok a => f a
  | Raise e => Raise e
  end.

(** [l[idx]] for a non-negative index. *)
Definition getitem {A} (l : list A) (idx : nat) : result A :=
  match l !! idx with
  | Some x => Ok x
  | None => Raise IndexError
  end.

(** [next(reader)] on a reader with the rows [reader] left. *)
Definition next_row (reader : list (list string))
  : result (list string * list (list string)) :=
  match reader with
  | row :: rest => Ok (row, rest)
  | [] => Raise StopIteration
  end.

(** ** convert_data_from_csv *)

(** The inner loop [for idx in range(headers_cnt)], over the indices still
    to visit.  The right-hand side [product[idx]] is evaluated before the
    subscript [headers[idx]] of the target. *)
Fixpoint fill_data (idxs : list nat) (headers product : list string)
    (data : gmap string string) : result (gmap string string) :=
  match idxs with
  | [] => Ok data
  | idx :: idxs' =>
      v ← getitem product idx;
      h ← getitem headers idx;
      fill_data idxs' headers product (<[h:=v]> data)
  end.

(** The body of the outer loop: one row to one product. *)
Definition convert_row (headers product : list string) : result Product :=
  i ← getitem product 0;
  d ← fill_data (seq 0 (length headers)) headers product ∅;
  Ok {| pdata := d; pid := i |}.

Fixpoint convert_data_from_csv (csv_products : list (list string))
    (headers : list string) : result (list Product) :=
  match csv_products with
  | [] => Ok []
  | product :: rest =>
      product_data ← convert_row headers product;
      products ← convert_data_from_csv rest headers;
      Ok (product_data :: products)
  end.

(** ** find_suitable_product *)

Fixpoint find_suitable_product (products : list Product) (match_id : string)
    : option Product :=
  match products with
  | [] => None
  | product :: rest =>
      if decide (pid product = match_id) then Some product
      else find_suitable_product rest match_id
  end.

(** ** prepare_data *)

Definition prepare_data (before_csv_reader after_csv_reader : list (list string))
    : result (list Product * list Product) :=
  '(_, before_csv_reader) ← next_row before_csv_reader;
  '(file_headers, after_csv_reader) ← next_row after_csv_reader;
  before_csv_products ← convert_data_from_csv before_csv_reader file_headers;
  after_csv_products ← convert_data_from_csv after_csv_reader file_headers;
  Ok (before_csv_products, after_csv_products).

(** ** main: the two loops as the list of yielded triples *)

(** The body of the first loop, for one [before_product]. *)
Definition before_operation (after_products : list Product)
    (before_product : Product) : operation :=
  match find_suitable_product after_products (pid before_product) with
  | Some suitable_product =>
      (UPDATE, pid before_product, Some (pdata suitable_product))
  | None => (DELETE, pid before_product, None)
  end.

(** The second loop, over the part of [after_products] still to visit. *)
Fixpoint create_operations (before_products after_rest : list Product)
    : list operation :=
  match after_rest with
  | [] => []
  | after_product :: rest =>
      match find_suitable_product before_products (pid after_product) with
      | None =>
          (CREATE, pid after_product, Some (pdata after_product))
            :: create_operations before_products rest
      | Some _ => create_operations before_products rest
      end
  end.

(** Everything the two loops of [main] yield, in order. *)
Definition main_loops (before_products after_products : list Product)
    : list operation :=
  (before_operation after_products <$> before_products)
    ++ create_operations before_products after_products.

(** ** main: the generator *)

(** The two lists [prepare_data] returned; [main]'s locals
    [before_products] and [after_products] name them until the generator
    is exhausted. *)
Record store := { before_products : list Product; after_products : list Product }.

(** Where the suspended generator resumes: before fetching item [i] of the
    first loop, before fetching item [j] of the second, or after the end
    of the body. *)
Inductive position := BeforeLoop (i : nat) | AfterLoop (j : nat) | Exhausted.

(** The second loop from item [j] on, up to its next [yield]: the triple
    and the index to resume at, or [None] when the list runs out. *)
Fixpoint next_create (before_products after_rest : list Product) (j : nat)
    : option (operation * nat) :=
  match after_rest with
  | [] => None
  | after_product :: rest =>
      match find_suitable_product before_products (pid after_product) with
      | None =>
          Some ((CREATE, pid after_product, Some (pdata after_product)), S j)
      | Some _ => next_create before_products rest (S j)
      end
  end.

Definition resume_after (σ : store) (j : nat)
    : option operation * position * store :=
  match next_create (before_products σ) (drop j (after_products σ)) j with
  | Some (op, j') => (Some op, AfterLoop j', σ)
  | None => (None, Exhausted, σ)
  end.

(** [next(generator)] once the lists exist: run to the next [yield]
    ([Some] triple) or to the end of the body ([None], StopIteration to the
    consumer).  The store is returned as the body leaves it. *)
Definition resume (σ : store) (pc : position)
    : option operation * position * store :=
  match pc with
  | BeforeLoop i =>
      match before_products σ !! i with
      | Some before_product =>
          (Some (before_operation (after_products σ) before_product),
           BeforeLoop (S i), σ)
      | None => resume_after σ 0
      end
  | AfterLoop j => resume_after σ j
  | Exhausted => (None, Exhausted, σ)
  end.

(** The part of [main] before the first loop, run at the first [next]:
    the readers' rows become the two lists.  A StopIteration that escapes
    a generator body reaches the consumer as RuntimeError. *)
Definition main (before_csv after_csv : list (list string))
    : result (store * position) :=
  match prepare_data before_csv after_csv with
  | Ok (before_products, after_products) =>
      Ok ({| before_products := before_products;
             after_products := after_products |}, BeforeLoop 0)
  | Raise StopIteration => Raise RuntimeError
  | Raise e => Raise e
  end.

(** Pulling from the generator until it is exhausted: the triples
    received and the store left behind. *)
Inductive consume : store → position → list operation → store → Prop :=
  | consume_stop σ pc pc' σ' :
      resume σ pc = (None, pc', σ') →
      consume σ pc [] σ'
  | consume_yield σ pc op pc' σ' ops σ'' :
      resume σ pc = (Some op, pc', σ') →
      consume σ' pc' ops σ'' →
      consume σ pc (op :: ops) σ''.

(** [list(generator)], with a bound on the number of [next] calls. *)
Fixpoint drain (fuel : nat) (σ : store) (pc : position)
    : option (list operation * store) :=
  match fuel with
  | 0 => None
  | S fuel' =>
      match resume σ pc with
      | (None, _, σ') => Some ([], σ')
      | (Some op, pc', σ') =>
          '(ops, σ'') ← drain fuel' σ' pc';
          Some (op :: ops, σ'')
      end
  end.

(** [list(ProductDiffer(...).main())] on files whose readers deliver
    [before_csv] and [after_csv].  The bound on the number of [next] calls
    is never reached ([list_main_eq] below). *)
Definition list_main (before_csv after_csv : list (list string))
    : result (list operation) :=
  '(σ, pc) ← main before_csv after_csv;
  match drain (S (length (before_products σ) + length (after_products σ))) σ pc with
  | Some (ops, _) => Ok ops
  | None => Raise RuntimeError
  end.

(** The triple the second loop yields for an [after_product] it does not
    skip. *)
Definition create_operation (after_product : Product) : operation :=
  (CREATE, pid after_product, Some (pdata after_product)).

(** ** What the loader and a partial consumer are measured against *)

(** A row the conversion can read with [headers]: it has a first cell for
    [product[0]] and a cell for every index of [range(headers_cnt)]. *)
Definition row_fits (headers product : list string) : Prop :=
  0 < length product ∧ length headers ≤ length product.

(** The cells of a row the conversion reads: those at the indices of the
    header, and the first one. *)
Definition cells_read (headers product : list string) : list string :=
  take (max 1 (length headers)) product.

(** A consumer that calls [next] at most [n] times and stops early at
    StopIteration: the triples received, where the generator is left, and
    the store. *)
Fixpoint pull (n : nat) (σ : store) (pc : position)
    : list operation * position * store :=
  match n with
  | 0 => ([], pc, σ)
  | S n' =>
      match resume σ pc with
      | (None, pc', σ') => ([], pc', σ')
      | (Some op, pc', σ') =>
          let '(ops, pc'', σ'') := pull n' σ' pc' in (op :: ops, pc'', σ'')
      end
  end.

(** ** The same code over Python objects

    The value-level functions above take the rows a reader has delivered
    and build products as values.  The functions of this part follow the
    same source lines at the level of objects: a csv reader is iterated
    lazily and may fail while it is, every dict and list is an object in
    a heap with its own identity, and a yielded triple carries a reference
    to the live ['data'] dict, not a copy.  The refinement theorems below
    relate the two levels. *)

(** Locations are positions in the heap. *)
Abbreviation loc := nat.

Inductive object :=
  | DictObj (entries : gmap string string)
  | ProductObj (data : loc) (id : string)
  | ListObj (items : list loc).

(** The heap: location [l] holds item [l]; allocation appends. *)
Abbreviation heap := (list object).

(** A csv reader as the code sees it: the rows it delivers, in order, and
    the exception it raises after them if it fails ([None]: it ends with
    StopIteration). *)
Record csv_reader := { delivered : list (list string); failure : option exn }.

(** Computations that read and write the heap and may raise. *)
Definition M (A : Type) : Type := heap → result A * heap.

#[global] Instance M_ret : MRet M := λ A a h, (Ok a, h).
#[global] Instance M_bind : MBind M := λ A B f m h,
  match m h with
  | (Ok a, h') => f a h'
  | (Raise e, h') => (Raise e, h')
  end.

Definition raise {A} (e : exn) : M A := λ h, (Raise e, h).
Definition lift {A} (r : result A) : M A := λ h, (r, h).
Definition heap_alloc (o : object) : M loc := λ h, (Ok (length h), h ++ [o]).
Definition heap_load (l : loc) : M object := λ h,
  (match h !! l with Some o => Ok o | None => Raise TypeError end, h).
Definition heap_store (l : loc) (o : object) : M unit := λ h, (Ok (), <[l:=o]> h).

(** [product['data']] *)
Definition getitem_data (product : loc) : M loc :=
  o ← heap_load product;
  match o with ProductObj d _ => mret d | _ => raise TypeError end.

(** [product['id']] *)
Definition getitem_id (product : loc) : M string :=
  o ← heap_load product;
  match o with ProductObj _ i => mret i | _ => raise TypeError end.

(** [d[k] = v] *)
Definition dict_setitem (d : loc) (k v : string) : M unit :=
  o ← heap_load d;
  match o with
  | DictObj entries => heap_store d (DictObj (<[k:=v]> entries))
  | _ => raise TypeError
  end.

(** [products.append(x)] *)
Definition list_append (products x : loc) : M unit :=
  o ← heap_load products;
  match o with
  | ListObj items => heap_store products (ListObj (items ++ [x]))
  | _ => raise TypeError
  end.

(** The items a [for] loop over the list object visits. *)
Definition list_items (products : loc) : M (list loc) :=
  o ← heap_load products;
  match o with ListObj items => mret items | _ => raise TypeError end.

(** [next(reader)] *)
Definition next_reader (reader : csv_reader) : result (list string * csv_reader) :=
  match delivered reader with
  | row :: rest => Ok (row, {| delivered := rest; failure := failure reader |})
  | [] =>
      match failure reader with
      | Some e => Raise e
      | None => Raise StopIteration
      end
  end.

(** The inner loop of [convert_data_from_csv]: the right-hand side
    [product[idx]], then [product_data['data']], then [headers[idx]], then
    the store into the dict. *)
Fixpoint fill_data_heap (idxs : list nat) (headers product : list string)
    (product_data : loc) : M unit :=
  match idxs with
  | [] => mret ()
  | idx :: idxs' =>
      v ← lift (getitem product idx);
      d ← getitem_data product_data;
      h ← lift (getitem headers idx);
      _ ← dict_setitem d h v;
      fill_data_heap idxs' headers product product_data
  end.

(** The outer loop of [convert_data_from_csv] over the rows the reader
    still delivers; when they run out the reader either ends the loop or
    fails. *)
Fixpoint convert_rows_heap (rows : list (list string)) (failure : option exn)
    (headers : list string) (products : loc) : M unit :=
  match rows with
  | [] =>
      match failure with
      | Some e => raise e
      | None => mret ()
      end
  | product :: rest =>
      d ← heap_alloc (DictObj ∅);
      i ← lift (getitem product 0);
      product_data ← heap_alloc (ProductObj d i);
      _ ← fill_data_heap (seq 0 (length headers)) headers product product_data;
      _ ← list_append products product_data;
      convert_rows_heap rest failure headers products
  end.

Definition convert_data_from_csv_heap (csv_products : csv_reader)
    (headers : list string) : M loc :=
  products ← heap_alloc (ListObj []);
  _ ← convert_rows_heap (delivered csv_products) (failure csv_products)
        headers products;
  mret products.

(** The loop of [find_suitable_product] over the items still to visit. *)
Fixpoint find_in (items : list loc) (match_id : string) : M (option loc) :=
  match items with
  | [] => mret None
  | product :: rest =>
      i ← getitem_id product;
      if decide (i = match_id) then mret (Some product)
      else find_in rest match_id
  end.

Definition find_suitable_product_heap (products : loc) (match_id : string)
    : M (option loc) :=
  items ← list_items products;
  find_in items match_id.

Definition prepare_data_heap (before_csv_reader after_csv_reader : csv_reader)
    : M (loc * loc) :=
  '(_, before_csv_reader) ← lift (next_reader before_csv_reader);
  '(file_headers, after_csv_reader) ← lift (next_reader after_csv_reader);
  before_csv_products ← convert_data_from_csv_heap before_csv_reader file_headers;
  after_csv_products ← convert_data_from_csv_heap after_csv_reader file_headers;
  mret (before_csv_products, after_csv_products).

(** A yielded triple: the data is a reference to a dict, or [None]. *)
Definition reference_triple : Type := Operation * string * option loc.

(** What a consumer sees when it looks at a triple in heap [h]. *)
Definition render (h : heap) (t : reference_triple) : option operation :=
  match t with
  | (kind, i, None) => Some (kind, i, None)
  | (kind, i, Some d) =>
      match h !! d with
      | Some (DictObj entries) => Some (kind, i, Some entries)
      | _ => None
      end
  end.

(** The locals of the suspended generator: references to the two lists
    and the point to resume at. *)
Record frame := {
  before_products_ref : loc;
  after_products_ref : loc;
  resume_at : position
}.

(** The second loop from item [j] on, up to its next [yield]. *)
Fixpoint next_create_heap (before_products : loc) (after_rest : list loc)
    (j : nat) : M (option (reference_triple * nat)) :=
  match after_rest with
  | [] => mret None
  | after_product :: rest =>
      i ← getitem_id after_product;
      suitable_product ← find_suitable_product_heap before_products i;
      match suitable_product with
      | None =>
          i' ← getitem_id after_product;
          d ← getitem_data after_product;
          mret (Some ((CREATE, i', Some d), S j))
      | Some _ => next_create_heap before_products rest (S j)
      end
  end.

Definition resume_after_heap (f : frame) (j : nat)
    : M (option reference_triple * position) :=
  items ← list_items (after_products_ref f);
  r ← next_create_heap (before_products_ref f) (drop j items) j;
  match r with
  | Some (t, j') => mret (Some t, AfterLoop j')
  | None => mret (None, Exhausted)
  end.

(** The body of [main] from a suspension point to the next [yield] or to
    its end. *)
Definition resume_heap (f : frame) : M (option reference_triple * position) :=
  match resume_at f with
  | BeforeLoop i =>
      items ← list_items (before_products_ref f);
      match items !! i with
      | Some before_product =>
          i0 ← getitem_id before_product;
          suitable_product ← find_suitable_product_heap (after_products_ref f) i0;
          match suitable_product with
          | Some suitable_product =>
              i1 ← getitem_id before_product;
              d ← getitem_data suitable_product;
              mret (Some (UPDATE, i1, Some d), BeforeLoop (S i))
          | None =>
              i1 ← getitem_id before_product;
              mret (Some (DELETE, i1, None), BeforeLoop (S i))
          end
      | None => resume_after_heap f 0
      end
  | AfterLoop j => resume_after_heap f j
  | Exhausted => mret (None, Exhausted)
  end.

(** The generator object [main()] returns: not started yet, suspended at
    a [yield], or finished. *)
Inductive generator :=
  | Unstarted (before_csv_reader after_csv_reader : csv_reader)
  | Suspended (f : frame)
  | Finished.

Definition run_frame (f : frame) (h : heap)
    : result (option reference_triple) * generator * heap :=
  match resume_heap f h with
  | (Ok (Some t, pc), h') =>
      (Ok (Some t),
       Suspended {| before_products_ref := before_products_ref f;
                    after_products_ref := after_products_ref f;
                    resume_at := pc |}, h')
  | (Ok (None, _), h') => (Ok None, Finished, h')
  | (Raise e, h') => (Raise e, Finished, h')
  end.

(** [next(generator)]: a triple, [None] for StopIteration, or the
    exception that escapes the body.  The first call runs the body from
    its start, loader included; a StopIteration escaping the body reaches
    the caller as RuntimeError. *)
Definition gen_next (g : generator) (h : heap)
    : result (option reference_triple) * generator * heap :=
  match g with
  | Unstarted before_csv_reader after_csv_reader =>
      match prepare_data_heap before_csv_reader after_csv_reader h with
      | (Ok (before_products, after_products), h') =>
          run_frame {| before_products_ref := before_products;
                       after_products_ref := after_products;
                       resume_at := BeforeLoop 0 |} h'
      | (Raise StopIteration, h') => (Raise RuntimeError, Finished, h')
      | (Raise e, h') => (Raise e, Finished, h')
      end
  | Suspended f => run_frame f h
  | Finished => (Ok None, Finished, h)
  end.

(** [list(generator)] with a bound on the number of [next] calls: the
    references received, or the exception, and the heap left behind. *)
Fixpoint gen_list (fuel : nat) (g : generator) (h : heap)
    : option (result (list reference_triple) * heap) :=
  match fuel with
  | 0 => None
  | S fuel' =>
      match gen_next g h with
      | (Ok (Some t), g', h') =>
          match gen_list fuel' g' h' with
          | Some (Ok ts, h'') => Some (Ok (t :: ts), h'')
          | other => other
          end
      | (Ok None, _, h') => Some (Ok [], h')
      | (Raise e, _, h') => Some (Raise e, h')
      end
  end.

(** [list(ProductDiffer(...).main())] started in heap [h], as the consumer
    sees it afterwards: every triple with the content of its dict. *)
Definition list_main_heap (before_csv_reader after_csv_reader : csv_reader)
    (h : heap) : option (result (list operation)) :=
  match gen_list (S (length (delivered before_csv_reader)
                     + length (delivered after_csv_reader)))
                 (Unstarted before_csv_reader after_csv_reader) h with
  | Some (Ok ts, h') => Ok <$> mapM (render h') ts
  | Some (Raise e, _) => Some (Raise e)
  | None => None
  end.

(** The value-level reading of the same run: the value-level functions on
    the delivered rows, and the reader's failure where the loop over it
    would meet it. *)
Definition convert_data_from_reader (csv_products : csv_reader)
    (headers : list string) : result (list Product) :=
  products ← convert_data_from_csv (delivered csv_products) headers;
  match failure csv_products with
  | Some e => Raise e
  | None => Ok products
  end.

Definition prepare_data_from_readers (before_csv_reader after_csv_reader : csv_reader)
    : result (list Product * list Product) :=
  '(_, before_csv_reader) ← next_reader before_csv_reader;
  '(file_headers, after_csv_reader) ← next_reader after_csv_reader;
  before_csv_products ← convert_data_from_reader before_csv_reader file_headers;
  after_csv_products ← convert_data_from_reader after_csv_reader file_headers;
  Ok (before_csv_products, after_csv_products).

Definition list_main_from_readers (before_csv_reader after_csv_reader : csv_reader)
    : result (list operation) :=
  match prepare_data_from_readers before_csv_reader after_csv_reader with
  | Ok (before_products, after_products) =>
      Ok (main_loops before_products after_products)
  | Raise StopIteration => Raise RuntimeError
  | Raise e => Raise e
  end.

(** What it means for heap [h] to hold a product, and a list of
    products, at a location. *)
Definition repr_product (h : heap) (l : loc) (p : Product) : Prop :=
  ∃ d, h !! l = Some (ProductObj d (pid p)) ∧ h !! d = Some (DictObj (pdata p)).

Definition repr_list (h : heap) (l : loc) (ps : list Product) : Prop :=
  ∃ items, h !! l = Some (ListObj items) ∧ Forall2 (repr_product h) items ps.

(** A computation that leaves every heap as it found it, whether it
    returns or raises. *)
Definition reads_only {A} (m : M A) : Prop := ∀ h, (m h).2 = h.

(** A triple whose data, if any, is the ['data'] dict of one of the
    products [after_items] of the after list, the very object and not a
    copy, and which shows as [op] to whoever looks at it in [h]. *)
Definition yields_live (h : heap) (after_items : list loc)
    (t : reference_triple) (op : operation) : Prop :=
  render h t = Some op ∧
  ∀ d, t.2 = Some d →
       ∃ product, product ∈ after_items ∧ h !! product = Some (ProductObj d t.1.2).

(** ** Concrete inputs *)

(** The scenario: the two files as their readers deliver them, and the
    two lists [prepare_data] builds from them. *)
Definition scenario_before_csv : list (list string) :=
  [["id"; "name"]; ["1"; "A"]; ["2"; "B"]].
Definition scenario_after_csv : list (list string) :=
  [["id"; "name"]; ["2"; "B2"]; ["3"; "C"]].

Definition scenario_before : list Product :=
  [ {| pdata := {[ "id" := "1"; "name" := "A" ]}; pid := "1" |};
    {| pdata := {[ "id" := "2"; "name" := "B" ]}; pid := "2" |} ].
Definition scenario_after : list Product :=
  [ {| pdata := {[ "id" := "2"; "name" := "B2" ]}; pid := "2" |};
    {| pdata := {[ "id" := "3"; "name" := "C" ]}; pid := "3" |} ].

Definition scenario_store : store :=
  {| before_products := scenario_before; after_products := scenario_after |}.

Definition scenario_operations : list operation :=
  [ (DELETE, "1", None);
    (UPDATE, "2", Some {[ "id" := "2"; "name" := "B2" ]});
    (CREATE, "3", Some {[ "id" := "3"; "name" := "C" ]}) ].

(** An after list in which two products share the id ["2"]. *)
Definition duplicated_after : list Product :=
  [ {| pdata := {[ "id" := "3"; "name" := "C" ]}; pid := "3" |};
    {| pdata := {[ "id" := "2"; "name" := "first" ]}; pid := "2" |};
    {| pdata := {[ "id" := "2"; "name" := "second" ]}; pid := "2" |} ].

(** The heap the loader builds from the scenario's two files when it
    starts in an empty heap: the before list at 0, the after list at 5. *)
Definition scenario_heap : heap :=
  [ ListObj [2; 4];
    DictObj {[ "id" := "1"; "name" := "A" ]}; ProductObj 1 "1";
    DictObj {[ "id" := "2"; "name" := "B" ]}; ProductObj 3 "2";
    ListObj [7; 9];
    DictObj {[ "id" := "2"; "name" := "B2" ]}; ProductObj 6 "2";
    DictObj {[ "id" := "3"; "name" := "C" ]}; ProductObj 8 "3" ].

(** The same two lists at other locations, behind an object of some
    earlier run: the before list at 1, the after list at 6. *)
Definition scenario_heap_later : heap :=
  [ DictObj {[ "id" := "9"; "name" := "left over" ]};
    ListObj [3; 5];
    DictObj {[ "id" := "1"; "name" := "A" ]}; ProductObj 2 "1";
    DictObj {[ "id" := "2"; "name" := "B" ]}; ProductObj 4 "2";
    ListObj [8; 10];
    DictObj {[ "id" := "2"; "name" := "B2" ]}; ProductObj 7 "2";
    DictObj {[ "id" := "3"; "name" := "C" ]}; ProductObj 9 "3" ].

(** ** find_suitable_product: first match in list order *)

Section find_suitable_product_facts.
Implicit Types (products : list Product) (match_id : string) (p : Product).

Lemma find_suitable_product_None products match_id :
  find_suitable_product products match_id = None ↔ match_id ∉ pid <$> products.
Proof.
  induction products as [|q rest IH]; simpl.
  - split; [intros _; apply not_elem_of_nil | done].
  - rewrite not_elem_of_cons. case_decide as Hq.
    + split; [done | intros [Hne _]; by destruct Hne].
    + rewrite IH. split; [by auto | by intros [_ ?]].
Qed.

Lemma find_suitable_product_is_Some products match_id :
  is_Some (find_suitable_product products match_id) ↔ match_id ∈ pid <$> products.
Proof.
  rewrite <- not_eq_None_Some, find_suitable_product_None.
  split; [apply dec_stable | auto].
Qed.

Lemma find_suitable_product_first products match_id p :
  find_suitable_product products match_id = Some p ↔
  ∃ l1 l2, products = l1 ++ p :: l2 ∧ pid p = match_id
           ∧ Forall (λ q, pid q ≠ match_id) l1.
Proof.
  induction products as [|q rest IH]; simpl.
  - split; [done | intros ([|??] & ? & ? & _); done].
  - case_decide as Hq.
    + split.
      * intros [= ->]. by exists [], rest.
      * intros ([|q' l1] & l2 & Heq & Hp & Hl1); simplify_eq/=; [done|].
        by inversion Hl1.
    + rewrite IH. split.
      * intros (l1 & l2 & -> & Hp & Hl1). exists (q :: l1), l2. by auto.
      * intros ([|q' l1] & l2 & Heq & Hp & Hl1); simplify_eq/=.
        inversion Hl1; subst. by exists l1, l2.
Qed.

Lemma find_suitable_product_pid products match_id p :
  find_suitable_product products match_id = Some p → pid p = match_id ∧ p ∈ products.
Proof.
  rewrite find_suitable_product_first. intros (l1 & l2 & -> & Hp & _).
  split; [done|]. apply elem_of_app. right. apply elem_of_cons. by left.
Qed.

Lemma find_suitable_product_unique products p :
  NoDup (pid <$> products) → p ∈ products →
  find_suitable_product products (pid p) = Some p.
Proof.
  induction products as [|q rest IH]; simpl.
  - intros _ Hp. by apply elem_of_nil in Hp.
  - rewrite NoDup_cons, elem_of_cons. intros [Hq Hnd] [->|Hp].
    + by rewrite decide_True.
    + rewrite decide_False; [by apply IH|].
      intros Heq. apply Hq. rewrite Heq. by apply list_elem_of_fmap_2.
Qed.
End find_suitable_product_facts.

(** ** The generator yields exactly [main_loops] *)

Section generator_facts.
Implicit Types (σ : store) (pc : position) (ops : list operation).

Lemma resume_store σ pc : (resume σ pc).2 = σ.
Proof.
  destruct pc as [i|j|]; simpl; [destruct (_ !! i); simpl| |]; try done;
    unfold resume_after; by destruct (next_create _ _ _) as [[??]|].
Qed.

Lemma next_create_None before_products after_rest j :
  next_create before_products after_rest j = None →
  create_operations before_products after_rest = [].
Proof.
  revert j. induction after_rest as [|a rest IH]; intros j; simpl; [done|].
  destruct (find_suitable_product _ _); [apply IH | done].
Qed.

Lemma next_create_Some before_products after_rest j op j' :
  next_create before_products after_rest j = Some (op, j') →
  ∃ k, j' = j + S k ∧ k < length after_rest ∧
       create_operations before_products after_rest
       = op :: create_operations before_products (drop (S k) after_rest).
Proof.
  revert j. induction after_rest as [|a rest IH]; intros j; simpl; [done|].
  destruct (find_suitable_product _ _).
  - intros (k & -> & Hk & Heq)%IH. exists (S k).
    split; [lia|]. split; [lia|done].
  - intros [= <- <-]. exists 0. rewrite drop_0. split; [lia|]. split; [lia|done].
Qed.

(** From the second loop on, the consumer receives the CREATE triples of
    the items not visited yet. *)
Lemma consume_after_loop σ j :
  consume σ (AfterLoop j)
    (create_operations (before_products σ) (drop j (after_products σ))) σ.
Proof.
  remember (length (drop j (after_products σ))) as n eqn:Hn.
  revert j Hn. induction (lt_wf n) as [n _ IH]. intros j ->.
  destruct (next_create (before_products σ) (drop j (after_products σ)) j)
    as [[op j']|] eqn:Hnext.
  - destruct (next_create_Some _ _ _ _ _ Hnext) as (k & -> & Hk & ->).
    rewrite drop_drop.
    apply consume_yield with (pc' := AfterLoop (j + S k)) (σ' := σ).
    + simpl. unfold resume_after. by rewrite Hnext.
    + eapply IH; [|done]. rewrite !length_drop in *. lia.
  - rewrite (next_create_None _ _ _ Hnext).
    apply consume_stop with (pc' := Exhausted).
    simpl. unfold resume_after. by rewrite Hnext.
Qed.

Lemma consume_before_loop σ i :
  consume σ (BeforeLoop i)
    ((before_operation (after_products σ) <$> drop i (before_products σ))
       ++ create_operations (before_products σ) (after_products σ)) σ.
Proof.
  remember (length (before_products σ) - i) as n eqn:Hn.
  revert i Hn. induction n as [|n IH]; intros i Hn.
  - assert (before_products σ !! i = None) as Hi by (apply lookup_ge_None_2; lia).
    rewrite drop_ge by lia. simpl.
    pose proof (consume_after_loop σ 0) as Hc. rewrite drop_0 in Hc.
    inversion Hc as [? ? pc' ? Hr|? ? op pc' ? ? ? Hr Hrest]; subst.
    + eapply consume_stop. simpl. rewrite Hi. done.
    + eapply consume_yield; [|done]. simpl. rewrite Hi. done.
  - destruct (lookup_lt_is_Some_2 (before_products σ) i) as [b Hb]; [lia|].
    rewrite (drop_S _ _ _ Hb). simpl.
    apply consume_yield with (pc' := BeforeLoop (S i)) (σ' := σ).
    + simpl. by rewrite Hb.
    + apply IH. lia.
Qed.

(** Two complete consumptions from the same point receive the same
    triples and leave the same store. *)
Lemma consume_deterministic σ pc ops1 σ1 ops2 σ2 :
  consume σ pc ops1 σ1 → consume σ pc ops2 σ2 → ops1 = ops2 ∧ σ1 = σ2.
Proof.
  intros H1. revert ops2 σ2.
  induction H1 as [σ pc pc' σ' Hr|σ pc op pc' σ' ops σ'' Hr _ IH];
    intros ops2 σ2 H2; inversion H2 as [? ? ? ? Hr2|? ? ? ? ? ? ? Hr2 Hrest];
    subst; rewrite Hr in Hr2; simplify_eq; [done|].
  by destruct (IH _ _ Hrest) as [-> ->].
Qed.

Lemma consume_main_loops σ ops σ' :
  consume σ (BeforeLoop 0) ops σ' ↔
  ops = main_loops (before_products σ) (after_products σ) ∧ σ' = σ.
Proof.
  pose proof (consume_before_loop σ 0) as Hc. rewrite drop_0 in Hc.
  split.
  - intros H. by destruct (consume_deterministic _ _ _ _ _ _ H Hc) as [-> ->].
  - by intros [-> ->].
Qed.

Lemma drain_consume fuel σ pc ops σ' :
  drain fuel σ pc = Some (ops, σ') → consume σ pc ops σ'.
Proof.
  revert σ pc ops σ'. induction fuel as [|fuel IH]; intros σ pc ops σ'; simpl; [done|].
  destruct (resume σ pc) as [[[op|] pc'] σ1] eqn:Hr.
  - destruct (drain fuel σ1 pc') as [[ops' σ2]|] eqn:Hd; simpl; [|done].
    intros [= <- <-]. eapply consume_yield; [done|]. by apply IH.
  - intros [= <- <-]. by eapply consume_stop.
Qed.

Lemma consume_drain σ pc ops σ' :
  consume σ pc ops σ' →
  ∀ fuel, length ops < fuel → drain fuel σ pc = Some (ops, σ').
Proof.
  induction 1 as [σ pc pc' σ' Hr|σ pc op pc' σ' ops σ'' Hr _ IH];
    intros [|fuel] Hfuel; simpl in *; try lia; rewrite Hr; [done|].
  rewrite IH by lia. done.
Qed.

Lemma length_create_operations before_products after_rest :
  length (create_operations before_products after_rest) ≤ length after_rest.
Proof.
  induction after_rest as [|a rest IH]; simpl; [done|].
  destruct (find_suitable_product _ _); simpl; lia.
Qed.

Lemma length_main_loops before_products after_products :
  length (main_loops before_products after_products)
  ≤ length before_products + length after_products.
Proof.
  unfold main_loops. rewrite length_app, length_fmap.
  pose proof (length_create_operations before_products after_products). lia.
Qed.

(** [list(main())] is total: the readers' rows either fail to load or
    give exactly the triples of the two loops. *)
Lemma list_main_eq before_csv after_csv :
  list_main before_csv after_csv =
  match main before_csv after_csv with
  | Ok (σ, _) => Ok (main_loops (before_products σ) (after_products σ))
  | Raise e => Raise e
  end.
Proof.
  unfold list_main, main.
  destruct (prepare_data before_csv after_csv) as [[bp ap]|[]]; try done.
  set (σ := {| before_products := bp; after_products := ap |}).
  assert (consume σ (BeforeLoop 0) (main_loops bp ap) σ) as Hc
    by by apply consume_main_loops.
  cbn [mbind result_bind].
  rewrite (consume_drain _ _ _ _ Hc); [done|].
  pose proof (length_main_loops bp ap). simpl. lia.
Qed.

(** Whatever a consumer pulls out of [main]'s generator is what
    [list_main] computes, and the lists are left as they were loaded. *)
Lemma main_consume before_csv after_csv σ pc ops σ' :
  main before_csv after_csv = Ok (σ, pc) →
  consume σ pc ops σ' →
  list_main before_csv after_csv = Ok ops ∧ σ' = σ.
Proof.
  intros Hmain Hc. rewrite list_main_eq, Hmain.
  unfold main in Hmain.
  destruct (prepare_data before_csv after_csv) as [[bp ap]|[]]; simplify_eq.
  by apply consume_main_loops in Hc as [-> ->].
Qed.
End generator_facts.

(** ** The shape of [main_loops] *)

Section main_loops_facts.
Implicit Types (bp ap : list Product) (i : string) (o : operation).

Lemma op_id_before_operation ap b : op_id (before_operation ap b) = pid b.
Proof. unfold before_operation. by destruct (find_suitable_product _ _). Qed.

Lemma op_id_before_operations ap bp :
  op_id <$> (before_operation ap <$> bp) = pid <$> bp.
Proof.
  rewrite <- list_fmap_compose. apply list_fmap_ext.
  intros ? b _. apply op_id_before_operation.
Qed.

Lemma op_kind_before_operation ap b :
  op_kind (before_operation ap b) = UPDATE ∨ op_kind (before_operation ap b) = DELETE.
Proof. unfold before_operation. destruct (find_suitable_product _ _); auto. Qed.

(** The second loop keeps, in order, the after products whose id no
    before product has. *)
Lemma create_operations_filter bp ap :
  create_operations bp ap
  = create_operation <$> filter (λ a, pid a ∉ pid <$> bp) ap.
Proof.
  induction ap as [|a rest IH]; simpl; [done|].
  destruct (find_suitable_product bp (pid a)) as [b|] eqn:Hf.
  - rewrite filter_cons_False; [done|].
    intros Hn. apply Hn. apply find_suitable_product_is_Some. by eexists.
  - rewrite filter_cons_True by by apply find_suitable_product_None.
    simpl. by rewrite IH.
Qed.

Lemma op_id_create_operations bp ap :
  op_id <$> create_operations bp ap
  = list_difference (pid <$> ap) (pid <$> bp).
Proof.
  induction ap as [|a rest IH]; csimpl; [done|].
  destruct (find_suitable_product bp (pid a)) as [b|] eqn:Hf;
    destruct (decide_rel (∈) (pid a) (pid <$> bp)) as [Hin|Hnin];
    csimpl; rewrite ?IH; try done.
  - destruct Hnin. apply find_suitable_product_is_Some. by eexists.
  - by apply find_suitable_product_None in Hf.
Qed.

Lemma op_id_main_loops bp ap :
  op_id <$> main_loops bp ap
  = (pid <$> bp) ++ list_difference (pid <$> ap) (pid <$> bp).
Proof.
  unfold main_loops.
  by rewrite fmap_app, op_id_before_operations, op_id_create_operations.
Qed.

(** Every payload is the ['data'] dict of an after product. *)
Lemma main_loops_payload bp ap o d :
  o ∈ main_loops bp ap → op_payload o = Some d → ∃ a, a ∈ ap ∧ pdata a = d.
Proof.
  unfold main_loops. rewrite elem_of_app, create_operations_filter.
  intros [Ho|Ho]; apply list_elem_of_fmap in Ho as (x & -> & Hx).
  - unfold before_operation.
    destruct (find_suitable_product ap (pid x)) as [a|] eqn:Hf; [|done].
    intros [= <-]. exists a. split; [|done].
    by apply find_suitable_product_pid in Hf as [_ ?].
  - intros [= <-]. exists x. split; [|done].
    by apply list_elem_of_filter in Hx as [_ ?].
Qed.

Lemma filter_pid_absent (l : list Product) i :
  i ∉ pid <$> l → filter (λ q, pid q = i) l = [].
Proof.
  induction l as [|q rest IH]; csimpl; [done|].
  rewrite not_elem_of_cons. intros [Hq Hrest].
  rewrite filter_cons_False by done. by apply IH.
Qed.

(** Among products with distinct ids, an id selects its product. *)
Lemma filter_pid_unique (l : list Product) p :
  NoDup (pid <$> l) → p ∈ l → filter (λ q, pid q = pid p) l = [p].
Proof.
  induction l as [|q rest IH]; csimpl.
  - intros _ Hp. by apply elem_of_nil in Hp.
  - rewrite NoDup_cons. intros [Hq Hnd] Hp.
    apply elem_of_cons in Hp as [->|Hp].
    + rewrite filter_cons_True by done. f_equal. by apply filter_pid_absent.
    + rewrite filter_cons_False; [by apply IH|].
      intros Heq. apply Hq. rewrite Heq. by apply list_elem_of_fmap_2.
Qed.

Lemma filter_op_id_before ap bp i :
  filter (λ o, op_id o = i) (before_operation ap <$> bp)
  = before_operation ap <$> filter (λ b, pid b = i) bp.
Proof.
  induction bp as [|b rest IH]; csimpl; [done|].
  rewrite !filter_cons, op_id_before_operation.
  case_decide; csimpl; by rewrite IH.
Qed.

Lemma filter_op_id_create bp ap i :
  filter (λ o, op_id o = i) (create_operations bp ap)
  = create_operations bp (filter (λ a, pid a = i) ap).
Proof.
  induction ap as [|a rest IH]; csimpl; [done|].
  destruct (decide (pid a = i)) as [Hi|Hi].
  - rewrite (filter_cons_True (λ a, pid a = i)) by done. csimpl.
    destruct (find_suitable_product bp (pid a)); [done|].
    rewrite filter_cons_True by done. by rewrite IH.
  - rewrite (filter_cons_False (λ a, pid a = i)) by done.
    destruct (find_suitable_product bp (pid a)); [done|].
    by rewrite filter_cons_False.
Qed.

(** The triples of [main_loops] that carry a given id. *)
Lemma filter_op_id_main_loops bp ap i :
  filter (λ o, op_id o = i) (main_loops bp ap)
  = (before_operation ap <$> filter (λ b, pid b = i) bp)
      ++ create_operations bp (filter (λ a, pid a = i) ap).
Proof.
  unfold main_loops.
  by rewrite filter_app, filter_op_id_before, filter_op_id_create.
Qed.
End main_loops_facts.

(** ** The loader: which keys a converted product carries *)

Section loader_facts.
Implicit Types (headers product : list string) (data : gmap string string).

Lemma fill_data_dom headers product n s data d :
  s + n ≤ length headers →
  fill_data (seq s n) headers product data = Ok d →
  dom d = dom data ∪ list_to_set (take n (drop s headers)).
Proof.
  revert s data. induction n as [|n IH]; intros s data Hlen; simpl.
  - intros [= <-]. simpl. by rewrite (right_id_L ∅ (∪)).
  - unfold getitem.
    destruct (product !! s) as [v|]; [|done].
    destruct (lookup_lt_is_Some_2 headers s) as [h Hh]; [lia|].
    rewrite Hh. cbn [mbind result_bind].
    intros Hd. apply IH in Hd; [|lia].
    rewrite Hd, dom_insert_L, (drop_S _ _ _ Hh). simpl.
    by rewrite (assoc_L (∪)), (comm_L (∪) (dom data)).
Qed.

Lemma convert_row_dom headers product p :
  convert_row headers product = Ok p →
  dom (pdata p) = list_to_set headers ∧ product !! 0 = Some (pid p).
Proof.
  unfold convert_row, getitem.
  destruct (product !! 0) as [i|]; [|done]. cbn [mbind result_bind].
  destruct (fill_data _ _ _ _) as [d|] eqn:Hd; [|done].
  intros [= <-]. simpl. split; [|done].
  apply fill_data_dom in Hd; [|simpl; lia].
  by rewrite Hd, drop_0, firstn_all, dom_empty_L, (left_id_L ∅ (∪)).
Qed.

Lemma convert_data_from_csv_dom csv_products headers products :
  convert_data_from_csv csv_products headers = Ok products →
  Forall (λ p, dom (pdata p) =@{gset string} list_to_set headers) products.
Proof.
  revert products.
  induction csv_products as [|product rest IH]; intros products; simpl.
  - by intros [= <-].
  - destruct (convert_row headers product) as [p|] eqn:Hp; [|done].
    cbn [mbind result_bind].
    destruct (convert_data_from_csv rest headers) as [ps|]; [|done].
    intros [= <-]. constructor; [|by apply IH].
    by apply convert_row_dom in Hp as [? _].
Qed.

Lemma prepare_data_unfold hb rb ha ra :
  prepare_data (hb :: rb) (ha :: ra) =
  (before_csv_products ← convert_data_from_csv rb ha;
   after_csv_products ← convert_data_from_csv ra ha;
   Ok (before_csv_products, after_csv_products)).
Proof. done. Qed.
End loader_facts.

(** ** Properties of the operation stream *)

(** C1 (classification).  When no id occurs twice within a list, the
    triples of [main] that carry an id [i] are exactly one: an UPDATE with
    the data of the after product when [i] is in both lists, a DELETE
    with [None] when it is only in before, a CREATE with the data of the
    after product when it is only in after. *)
Theorem main_classification (bp ap : list Product) (i : string) :
  NoDup (pid <$> bp) → NoDup (pid <$> ap) →
  (∀ a, i ∈ pid <$> bp → a ∈ ap → pid a = i →
     filter (λ o, op_id o = i) (main_loops bp ap) = [(UPDATE, i, Some (pdata a))]) ∧
  (i ∈ pid <$> bp → i ∉ pid <$> ap →
     filter (λ o, op_id o = i) (main_loops bp ap) = [(DELETE, i, None)]) ∧
  (∀ a, i ∉ pid <$> bp → a ∈ ap → pid a = i →
     filter (λ o, op_id o = i) (main_loops bp ap) = [(CREATE, i, Some (pdata a))]).
Proof.
  intros Hbp Hap. rewrite filter_op_id_main_loops. repeat split.
  - intros a Hi Ha <-.
    apply list_elem_of_fmap in Hi as (b & Hb & Hin).
    assert (filter (λ q, pid q = pid a) bp = [b]) as ->
      by (rewrite Hb; by apply filter_pid_unique).
    rewrite (filter_pid_unique ap a) by done.
    csimpl. unfold before_operation.
    rewrite <- Hb, (find_suitable_product_unique ap a) by done.
    destruct (find_suitable_product bp (pid a)) as [b'|] eqn:Hf; [done|].
    apply find_suitable_product_None in Hf. destruct Hf.
    rewrite Hb. by apply list_elem_of_fmap_2.
  - intros Hi Hni.
    apply list_elem_of_fmap in Hi as (b & -> & Hin).
    rewrite (filter_pid_absent ap), (filter_pid_unique bp b) by done.
    csimpl. unfold before_operation.
    by rewrite (proj2 (find_suitable_product_None ap (pid b))).
  - intros a Hni Ha <-.
    rewrite (filter_pid_absent bp), (filter_pid_unique ap a) by done.
    csimpl. by rewrite (proj2 (find_suitable_product_None bp (pid a))).
Qed.

(** The first loop reads only the id of a before product, and the second
    loop only asks whether an id occurs in before: the stream depends on
    the before list through its ids alone. *)
Lemma main_loops_before_ids (bp bp' ap : list Product) :
  pid <$> bp' = pid <$> bp → main_loops bp' ap = main_loops bp ap.
Proof.
  intros Hids. unfold main_loops. rewrite !create_operations_filter, Hids.
  f_equal.
  assert (∀ l : list Product, before_operation ap <$> l
    = (λ i, match find_suitable_product ap i with
            | Some suitable_product => (UPDATE, i, Some (pdata suitable_product))
            | None => (DELETE, i, None)
            end) <$> (pid <$> l)) as Hfmap.
  { intros l. rewrite <- list_fmap_compose. by apply list_fmap_ext. }
  by rewrite !Hfmap, Hids.
Qed.

(** C2 (unconditional UPDATE).  A before product whose id occurs in after
    yields an UPDATE whatever the two field mappings are; its payload is
    the data of an after product (the one the lookup returns), and the
    whole stream stays the same when the before products are replaced by
    any others with the same ids, so no before data reaches a payload. *)
Theorem main_update_unconditional (bp ap : list Product) (b : Product) :
  b ∈ bp → pid b ∈ pid <$> ap →
  ∃ a, a ∈ ap ∧ pid a = pid b ∧
       find_suitable_product ap (pid b) = Some a ∧
       (UPDATE, pid b, Some (pdata a)) ∈ main_loops bp ap ∧
       ∀ bp', pid <$> bp' = pid <$> bp → main_loops bp' ap = main_loops bp ap.
Proof.
  intros Hb Hin.
  apply find_suitable_product_is_Some in Hin as [a Ha].
  destruct (find_suitable_product_pid _ _ _ Ha) as [Hid Hmem].
  exists a. repeat split; try done.
  - unfold main_loops. apply elem_of_app. left.
    apply list_elem_of_fmap. exists b. split; [|done].
    unfold before_operation. by rewrite Ha.
  - intros bp'. apply main_loops_before_ids.
Qed.

(** C3 (completeness).  When no id occurs twice within a list, the ids of
    the yielded triples are pairwise distinct and are exactly the ids of
    before together with the ids of after. *)
Theorem main_completeness (bp ap : list Product) :
  NoDup (pid <$> bp) → NoDup (pid <$> ap) →
  NoDup (op_id <$> main_loops bp ap) ∧
  ∀ i, i ∈ op_id <$> main_loops bp ap ↔ i ∈ pid <$> bp ∨ i ∈ pid <$> ap.
Proof.
  intros Hbp Hap. rewrite op_id_main_loops. split.
  - apply NoDup_app. split; [done|]. split.
    + intros i Hi Hd. by apply list_elem_of_difference in Hd as [_ ?].
    + by apply NoDup_list_difference.
  - intros i. rewrite elem_of_app, list_elem_of_difference.
    destruct (decide (i ∈ pid <$> bp)); tauto.
Qed.

(** C4 (ordering).  The first [length bp] triples are UPDATEs and DELETEs
    carrying the before ids in before's order; what follows are the
    CREATEs of the after products whose id is not in before, in after's
    order.  No assumption on the lists. *)
Theorem main_ordering (bp ap : list Product) :
  op_id <$> take (length bp) (main_loops bp ap) = pid <$> bp ∧
  Forall (λ o, op_kind o = UPDATE ∨ op_kind o = DELETE)
         (take (length bp) (main_loops bp ap)) ∧
  drop (length bp) (main_loops bp ap)
    = create_operation <$> filter (λ a, pid a ∉ pid <$> bp) ap ∧
  Forall (λ o, op_kind o = CREATE) (drop (length bp) (main_loops bp ap)).
Proof.
  unfold main_loops.
  rewrite take_app_length', drop_app_length' by by rewrite length_fmap.
  rewrite op_id_before_operations, create_operations_filter.
  repeat split.
  - apply Forall_fmap, Forall_forall. intros b _. apply op_kind_before_operation.
  - apply Forall_fmap, Forall_forall. by intros a _.
Qed.

(** C5 (empty-set laws).  With no before products every after product is
    created, in order; with no after products every before product is
    deleted with [None], in order; with neither nothing is yielded. *)
Theorem main_empty_laws :
  (∀ ap, main_loops [] ap = create_operation <$> ap) ∧
  (∀ bp, main_loops bp [] = (λ b, (DELETE, pid b, None)) <$> bp) ∧
  main_loops [] [] = [].
Proof.
  repeat split.
  - intros ap. unfold main_loops. csimpl.
    induction ap as [|a rest IH]; csimpl; [done|]. by rewrite IH.
  - intros bp. unfold main_loops. csimpl. by rewrite app_nil_r.
Qed.

(** C6 (scenario).  The two files load to the two lists of the scenario,
    and the stream is DELETE 1, UPDATE 2 with the after data, CREATE 3,
    in that order. *)
Theorem main_scenario :
  prepare_data scenario_before_csv scenario_after_csv
    = Ok (scenario_before, scenario_after) ∧
  main_loops scenario_before scenario_after
    = [ (DELETE, "1", None);
        (UPDATE, "2", Some {[ "id" := "2"; "name" := "B2" ]});
        (CREATE, "3", Some {[ "id" := "3"; "name" := "C" ]}) ] ∧
  list_main scenario_before_csv scenario_after_csv
    = Ok [ (DELETE, "1", None);
           (UPDATE, "2", Some {[ "id" := "2"; "name" := "B2" ]});
           (CREATE, "3", Some {[ "id" := "3"; "name" := "C" ]}) ].
Proof. repeat split; vm_compute; reflexivity. Qed.

(** C9 (first match).  [find_suitable_product] returns the first product
    in list order with the searched id and [None] when there is none; so
    when several after products share the id of the before product at
    index [k], the triple at index [k] is the UPDATE with the data of the
    earliest of them. *)
Theorem find_suitable_product_first_match
    (bp l1 l2 : list Product) (a b : Product) (k : nat) :
  bp !! k = Some b → pid a = pid b → Forall (λ q, pid q ≠ pid b) l1 →
  find_suitable_product (l1 ++ a :: l2) (pid b) = Some a ∧
  main_loops bp (l1 ++ a :: l2) !! k = Some (UPDATE, pid b, Some (pdata a)) ∧
  (∀ products match_id p,
     find_suitable_product products match_id = Some p ↔
     ∃ l1 l2, products = l1 ++ p :: l2 ∧ pid p = match_id
              ∧ Forall (λ q, pid q ≠ match_id) l1) ∧
  (∀ products match_id,
     find_suitable_product products match_id = None ↔
     match_id ∉ pid <$> products).
Proof.
  intros Hk Hid Hl1.
  assert (find_suitable_product (l1 ++ a :: l2) (pid b) = Some a) as Hf.
  { apply find_suitable_product_first. by exists l1, l2. }
  repeat split; try done.
  - unfold main_loops. rewrite lookup_app_l.
    + rewrite list_lookup_fmap, Hk. simpl. unfold before_operation. by rewrite Hf.
    + rewrite length_fmap. by eapply lookup_lt_Some.
  - by apply find_suitable_product_first.
  - by apply find_suitable_product_first.
  - by apply find_suitable_product_None.
  - by apply find_suitable_product_None.
Qed.

(** C10 (header schema).  [prepare_data] drops the first row of the
    before reader and converts the remaining rows of both readers with the
    first row of the after reader: the result does not depend on the
    before header, every product of either list has exactly the after
    header's names as keys, and so has every payload [main] yields. *)
Theorem prepare_data_header_schema
    (hb : list string) (rb : list (list string))
    (ha : list string) (ra : list (list string)) (bp ap : list Product) :
  prepare_data (hb :: rb) (ha :: ra) = Ok (bp, ap) →
  convert_data_from_csv rb ha = Ok bp ∧
  convert_data_from_csv ra ha = Ok ap ∧
  (∀ hb', prepare_data (hb' :: rb) (ha :: ra) = Ok (bp, ap)) ∧
  Forall (λ p, dom (pdata p) =@{gset string} list_to_set ha) (bp ++ ap) ∧
  (∀ o d, o ∈ main_loops bp ap → op_payload o = Some d →
          dom d =@{gset string} list_to_set ha).
Proof.
  rewrite prepare_data_unfold.
  destruct (convert_data_from_csv rb ha) as [bp'|] eqn:Hb; [|done].
  cbn [mbind result_bind].
  destruct (convert_data_from_csv ra ha) as [ap'|] eqn:Ha; [|done].
  intros [= <- <-].
  pose proof (convert_data_from_csv_dom _ _ _ Hb) as Hdb.
  pose proof (convert_data_from_csv_dom _ _ _ Ha) as Hda.
  repeat split.
  - intros hb'. rewrite prepare_data_unfold, Hb. cbn [mbind result_bind].
    by rewrite Ha.
  - by apply Forall_app.
  - intros o d Ho Hd.
    destruct (main_loops_payload _ _ _ _ Ho Hd) as (a & Hmem & <-).
    by apply (proj1 (Forall_forall _ _) Hda).
Qed.

(** ** The theorems at concrete inputs *)

Lemma main_classification_witness :
  (NoDup (pid <$> scenario_before) ∧ NoDup (pid <$> scenario_after)) ∧
  filter (λ o, op_id o = "2") (main_loops scenario_before scenario_after)
    = [(UPDATE, "2", Some {[ "id" := "2"; "name" := "B2" ]})] ∧
  filter (λ o, op_id o = "1") (main_loops scenario_before scenario_after)
    = [(DELETE, "1", None)] ∧
  filter (λ o, op_id o = "3") (main_loops scenario_before scenario_after)
    = [(CREATE, "3", Some {[ "id" := "3"; "name" := "C" ]})].
Proof.
  assert (NoDup (pid <$> scenario_before)) as Hb by compute_done.
  assert (NoDup (pid <$> scenario_after)) as Ha by compute_done.
  split; [done|]. split; [|split].
  - destruct (main_classification scenario_before scenario_after "2" Hb Ha)
      as (Hupdate & _ & _).
    refine (Hupdate {| pdata := {[ "id" := "2"; "name" := "B2" ]}; pid := "2" |} _ _ _);
      compute_done.
  - destruct (main_classification scenario_before scenario_after "1" Hb Ha)
      as (_ & Hdelete & _).
    apply Hdelete; compute_done.
  - destruct (main_classification scenario_before scenario_after "3" Hb Ha)
      as (_ & _ & Hcreate).
    refine (Hcreate {| pdata := {[ "id" := "3"; "name" := "C" ]}; pid := "3" |} _ _ _);
      compute_done.
Defined.

(** Before and after are the same list: both products are still updated. *)
Lemma main_update_unconditional_witness :
  ∃ a, a ∈ scenario_before ∧ pid a = "1" ∧
       find_suitable_product scenario_before "1" = Some a ∧
       (UPDATE, "1", Some (pdata a)) ∈ main_loops scenario_before scenario_before ∧
       ∀ bp', pid <$> bp' = pid <$> scenario_before →
              main_loops bp' scenario_before
              = main_loops scenario_before scenario_before.
Proof.
  apply (main_update_unconditional scenario_before scenario_before
           {| pdata := {[ "id" := "1"; "name" := "A" ]}; pid := "1" |});
    compute_done.
Defined.

Lemma main_completeness_witness :
  NoDup (op_id <$> main_loops scenario_before scenario_after) ∧
  ∀ i, i ∈ op_id <$> main_loops scenario_before scenario_after ↔
       i ∈ pid <$> scenario_before ∨ i ∈ pid <$> scenario_after.
Proof.
  apply (main_completeness scenario_before scenario_after); compute_done.
Defined.

Lemma find_suitable_product_first_match_witness :
  find_suitable_product duplicated_after "2"
    = Some {| pdata := {[ "id" := "2"; "name" := "first" ]}; pid := "2" |} ∧
  main_loops scenario_before duplicated_after !! 1
    = Some (UPDATE, "2", Some {[ "id" := "2"; "name" := "first" ]}).
Proof.
  destruct (find_suitable_product_first_match scenario_before
              [ {| pdata := {[ "id" := "3"; "name" := "C" ]}; pid := "3" |} ]
              [ {| pdata := {[ "id" := "2"; "name" := "second" ]}; pid := "2" |} ]
              {| pdata := {[ "id" := "2"; "name" := "first" ]}; pid := "2" |}
              {| pdata := {[ "id" := "2"; "name" := "B" ]}; pid := "2" |}
              1) as (Hfind & Hupdate & _); [reflexivity|reflexivity| |by split].
  repeat constructor. compute_done.
Defined.

(** The before file carries other column names: the loaded lists and the
    payload keys are those of the after header all the same. *)
Lemma prepare_data_header_schema_witness :
  prepare_data (["sku"; "title"] :: [["1"; "A"]; ["2"; "B"]])
               (["id"; "name"] :: [["2"; "B2"]; ["3"; "C"]])
    = Ok (scenario_before, scenario_after) ∧
  Forall (λ p, dom (pdata p) =@{gset string} list_to_set ["id"; "name"])
         (scenario_before ++ scenario_after).
Proof.
  assert (prepare_data (["sku"; "title"] :: [["1"; "A"]; ["2"; "B"]])
                       (["id"; "name"] :: [["2"; "B2"]; ["3"; "C"]])
          = Ok (scenario_before, scenario_after)) as Hload
    by (vm_compute; reflexivity).
  split; [exact Hload|].
  by destruct (prepare_data_header_schema _ _ _ _ _ _ Hload) as (_ & _ & _ & Hdom & _).
Defined.


(** * Further properties of the loader *)

Section convert_facts.
Implicit Types (headers product : list string) (data : gmap string string).

Lemma fill_data_Ok headers product n s data :
  s + n ≤ length headers → s + n ≤ length product →
  ∃ d, fill_data (seq s n) headers product data = Ok d.
Proof.
  revert s data. induction n as [|n IH]; intros s data Hh Hp; simpl; [by eexists|].
  unfold getitem.
  destruct (lookup_lt_is_Some_2 product s) as [v ->]; [lia|].
  destruct (lookup_lt_is_Some_2 headers s) as [h ->]; [lia|].
  cbn [mbind result_bind]. apply IH; lia.
Qed.

Lemma fill_data_Raise headers product n s data :
  s + n ≤ length headers → s ≤ length product → length product < s + n →
  fill_data (seq s n) headers product data = Raise IndexError.
Proof.
  revert s data. induction n as [|n IH]; intros s data Hh Hs Hp; simpl; [lia|].
  unfold getitem.
  destruct (product !! s) as [v|] eqn:Hv; [|done].
  destruct (lookup_lt_is_Some_2 headers s) as [h ->]; [lia|].
  cbn [mbind result_bind]. apply lookup_lt_Some in Hv. apply IH; lia.
Qed.

Lemma convert_row_cases headers product :
  match convert_row headers product with
  | Ok p => row_fits headers product
  | Raise e => e = IndexError ∧ ¬ row_fits headers product
  end.
Proof.
  unfold convert_row, getitem, row_fits.
  destruct (product !! 0) as [i|] eqn:Hi; cbn [mbind result_bind].
  - apply lookup_lt_Some in Hi.
    destruct (decide (length headers ≤ length product)) as [Hle|Hgt].
    + destruct (fill_data_Ok headers product (length headers) 0 ∅) as [d ->];
        [lia|lia|]. cbn [mbind result_bind]. lia.
    + rewrite fill_data_Raise by (simpl; lia). cbn [mbind result_bind].
      split; [done|lia].
  - apply lookup_ge_None in Hi. split; [done|lia].
Qed.
End convert_facts.

(** On rows that the reader has delivered, the conversion either converts
    every row, and then every row has a first cell and a cell for every
    header, or raises IndexError, and then some row lacks one of them. *)
Lemma convert_rows_cases
    (csv_products : list (list string)) (headers : list string) :
  match convert_data_from_csv csv_products headers with
  | Ok products => Forall (row_fits headers) csv_products
  | Raise e =>
      e = IndexError ∧ Exists (λ product, ¬ row_fits headers product) csv_products
  end.
Proof.
  induction csv_products as [|product rest IH]; simpl; [done|].
  pose proof (convert_row_cases headers product) as Hrow.
  destruct (convert_row headers product) as [p|e]; cbn [mbind result_bind].
  - destruct (convert_data_from_csv rest headers) as [ps|e];
      cbn [mbind result_bind].
    + by constructor.
    + destruct IH as [-> IH]. split; [done|]. by apply Exists_cons_tl.
  - destruct Hrow as [-> Hrow]. split; [done|]. by apply Exists_cons_hd.
Qed.

Lemma convert_rows_ids
    (csv_products : list (list string)) (headers : list string)
    (products : list Product) :
  convert_data_from_csv csv_products headers = Ok products →
  (λ product, product !! 0) <$> csv_products = (λ p, Some (pid p)) <$> products.
Proof.
  revert products.
  induction csv_products as [|product rest IH]; intros products; simpl.
  - by intros [= <-].
  - destruct (convert_row headers product) as [p|] eqn:Hp; [|done].
    cbn [mbind result_bind].
    destruct (convert_data_from_csv rest headers) as [ps|]; [|done].
    intros [= <-]. csimpl. f_equal; [|by apply IH].
    by apply convert_row_dom in Hp as [_ ?].
Qed.

(** X2.  The conversion keeps the rows one to one and in order: the ids
    of the products are the first cells of the rows, row by row. *)
Theorem convert_data_from_csv_ids
    (csv_products : list (list string)) (headers : list string)
    (products : list Product) :
  convert_data_from_csv csv_products headers = Ok products →
  (λ product, product !! 0) <$> csv_products = (λ p, Some (pid p)) <$> products.
Proof.
  revert products.
  induction csv_products as [|product rest IH]; intros products; simpl.
  - by intros [= <-].
  - destruct (convert_row headers product) as [p|] eqn:Hp; [|done].
    cbn [mbind result_bind].
    destruct (convert_data_from_csv rest headers) as [ps|]; [|done].
    intros [= <-]. csimpl. f_equal; [|by apply IH].
    by apply convert_row_dom in Hp as [_ ?].
Qed.

Lemma fill_data_lookup (headers product : list string) n s
    (data d : gmap string string) (h : string) :
  fill_data (seq s n) headers product data = Ok d →
  (∀ idx, s ≤ idx < s + n → headers !! idx = Some h →
          (∀ j, idx < j < s + n → headers !! j ≠ Some h) →
          d !! h = product !! idx) ∧
  ((∀ j, s ≤ j < s + n → headers !! j ≠ Some h) → d !! h = data !! h).
Proof.
  revert s data. induction n as [|n IH]; intros s data; simpl.
  - intros [= <-]. split; [intros idx ?; lia | done].
  - unfold getitem.
    destruct (product !! s) as [v|] eqn:Hv; [|done].
    destruct (headers !! s) as [h0|] eqn:Hh0; [|done].
    cbn [mbind result_bind]. intros Hd.
    destruct (IH _ _ Hd) as [IHa IHb]. split.
    + intros idx Hidx Hh Hlast.
      destruct (decide (idx = s)) as [->|Hne].
      * rewrite IHb by (intros j Hj; apply Hlast; lia).
        assert (h0 = h) as -> by congruence.
        by rewrite lookup_insert_eq.
      * apply IHa; [lia|done|]. intros j Hj. apply Hlast. lia.
    + intros Hnone. rewrite IHb by (intros j Hj; apply Hnone; lia).
      apply lookup_insert_ne. intros ->. by apply (Hnone s); [lia|].
Qed.

Lemma convert_row_lookup (headers product : list string) (p : Product)
    (idx : nat) (h : string) :
  convert_row headers product = Ok p →
  headers !! idx = Some h → (∀ j, idx < j → headers !! j ≠ Some h) →
  pdata p !! h = product !! idx.
Proof.
  unfold convert_row, getitem.
  destruct (product !! 0) as [i|]; [|done]. cbn [mbind result_bind].
  destruct (fill_data _ _ _ _) as [d|] eqn:Hd; [|done].
  intros [= <-] Hh Hlast. simpl.
  destruct (fill_data_lookup _ _ _ _ _ _ h Hd) as [Hcell _].
  apply Hcell; [|done|by intros j [? _]; apply Hlast].
  apply lookup_lt_Some in Hh. lia.
Qed.

Lemma convert_rows_cells
    (csv_products : list (list string)) (headers : list string)
    (products : list Product) (idx : nat) (h : string) :
  convert_data_from_csv csv_products headers = Ok products →
  headers !! idx = Some h → (∀ j, idx < j → headers !! j ≠ Some h) →
  Forall2 (λ product p, pdata p !! h = product !! idx ∧ is_Some (product !! idx))
          csv_products products.
Proof.
  intros Hc Hh Hlast. revert products Hc.
  induction csv_products as [|product rest IH]; intros products; simpl.
  - intros [= <-]. constructor.
  - pose proof (convert_row_cases headers product) as Hfits.
    destruct (convert_row headers product) as [p|] eqn:Hp; [|done].
    cbn [mbind result_bind].
    destruct (convert_data_from_csv rest headers) as [ps|]; [|done].
    intros [= <-]. constructor; [|by apply IH]. split.
    + by eapply convert_row_lookup.
    + apply lookup_lt_is_Some_2. apply lookup_lt_Some in Hh.
      destruct Hfits. lia.
Qed.

(** X3.  The cell stored under a column name is the one in the last
    column of that name: when [headers[idx]] is [h] and no later header is
    [h], every converted product has under [h] the cell [idx] of its
    row. *)
Theorem convert_data_from_csv_cells
    (csv_products : list (list string)) (headers : list string)
    (products : list Product) (idx : nat) (h : string) :
  convert_data_from_csv csv_products headers = Ok products →
  headers !! idx = Some h → (∀ j, idx < j → headers !! j ≠ Some h) →
  Forall2 (λ product p, pdata p !! h = product !! idx ∧ is_Some (product !! idx))
          csv_products products.
Proof.
  intros Hc Hh Hlast. revert products Hc.
  induction csv_products as [|product rest IH]; intros products; simpl.
  - intros [= <-]. constructor.
  - pose proof (convert_row_cases headers product) as Hfits.
    destruct (convert_row headers product) as [p|] eqn:Hp; [|done].
    cbn [mbind result_bind].
    destruct (convert_data_from_csv rest headers) as [ps|]; [|done].
    intros [= <-]. constructor; [|by apply IH]. split.
    + by eapply convert_row_lookup.
    + apply lookup_lt_is_Some_2. apply lookup_lt_Some in Hh.
      destruct Hfits. lia.
Qed.

Lemma fill_data_ext (idxs : list nat) (headers product product' : list string)
    (data : gmap string string) :
  (∀ idx, idx ∈ idxs → product' !! idx = product !! idx) →
  fill_data idxs headers product' data = fill_data idxs headers product data.
Proof.
  revert data. induction idxs as [|idx rest IH]; intros data Hext; simpl; [done|].
  unfold getitem. rewrite Hext by by left.
  destruct (product !! idx); [|done].
  destruct (headers !! idx); [|done].
  cbn [mbind result_bind]. apply IH. intros j Hj. apply Hext. by right.
Qed.

(** X4.  Only the cells under the header, and the first cell, are read:
    cutting every row down to them changes nothing, neither the products
    nor an exception. *)
Theorem convert_data_from_csv_cells_read
    (csv_products : list (list string)) (headers : list string) :
  convert_data_from_csv (cells_read headers <$> csv_products) headers
  = convert_data_from_csv csv_products headers.
Proof.
  induction csv_products as [|product rest IH]; csimpl; [done|].
  rewrite IH. f_equal.
  unfold convert_row, getitem, cells_read.
  rewrite lookup_take_lt by lia.
  rewrite (fill_data_ext _ _ product); [done|].
  intros idx Hidx. apply list_elem_of_lookup in Hidx as [k Hk].
  apply lookup_seq in Hk as [-> Hk]. apply lookup_take_lt. lia.
Qed.


(** On rows that both readers have delivered, header row included,
    [prepare_data] succeeds exactly when every remaining row of both
    readers, the before rows included, has a first cell and a cell for
    every name of the after header; otherwise it raises IndexError. *)
Lemma prepare_rows_cases
    (hb : list string) (rb : list (list string))
    (ha : list string) (ra : list (list string)) :
  match prepare_data (hb :: rb) (ha :: ra) with
  | Ok (before_csv_products, after_csv_products) =>
      Forall (row_fits ha) (rb ++ ra) ∧
      length before_csv_products = length rb ∧
      length after_csv_products = length ra
  | Raise e =>
      e = IndexError ∧ Exists (λ product, ¬ row_fits ha product) (rb ++ ra)
  end.
Proof.
  rewrite prepare_data_unfold.
  pose proof (convert_rows_cases rb ha) as Hb.
  pose proof (convert_rows_ids rb ha) as Hidb.
  pose proof (convert_rows_cases ra ha) as Ha.
  pose proof (convert_rows_ids ra ha) as Hida.
  destruct (convert_data_from_csv rb ha) as [bp|e]; cbn [mbind result_bind].
  - destruct (convert_data_from_csv ra ha) as [ap|e]; cbn [mbind result_bind].
    + split; [by apply Forall_app|].
      specialize (Hidb bp eq_refl). specialize (Hida ap eq_refl).
      apply (f_equal length) in Hidb, Hida.
      rewrite !length_fmap in Hidb, Hida. done.
    + destruct Ha as [-> Ha]. split; [done|]. apply Exists_app. by right.
  - destruct Hb as [-> Hb]. split; [done|]. apply Exists_app. by left.
Qed.

(** Every payload is the ['data'] dict of an after product that has the
    id of the triple. *)
Lemma main_loops_payload_id (bp ap : list Product) (o : operation)
    (d : gmap string string) :
  o ∈ main_loops bp ap → op_payload o = Some d →
  ∃ a, a ∈ ap ∧ pdata a = d ∧ pid a = op_id o.
Proof.
  unfold main_loops. rewrite elem_of_app, create_operations_filter.
  intros [Ho|Ho]; apply list_elem_of_fmap in Ho as (x & -> & Hx).
  - unfold before_operation.
    destruct (find_suitable_product ap (pid x)) as [a|] eqn:Hf; [|done].
    intros [= <-]. exists a.
    by apply find_suitable_product_pid in Hf as [? ?].
  - intros [= <-]. exists x. split; [|done].
    by apply list_elem_of_filter in Hx as [_ ?].
Qed.

(** X7.  When the first name of the after header is not repeated in it,
    every payload [main] yields carries the id of its triple under that
    name. *)
Theorem main_payload_carries_id
    (hb : list string) (rb : list (list string))
    (h0 : string) (hs : list string) (ra : list (list string))
    (bp ap : list Product) (o : operation) (d : gmap string string) :
  prepare_data (hb :: rb) ((h0 :: hs) :: ra) = Ok (bp, ap) →
  h0 ∉ hs →
  o ∈ main_loops bp ap → op_payload o = Some d →
  d !! h0 = Some (op_id o).
Proof.
  rewrite prepare_data_unfold.
  destruct (convert_data_from_csv rb (h0 :: hs)) as [bp'|]; [|done].
  cbn [mbind result_bind].
  destruct (convert_data_from_csv ra (h0 :: hs)) as [ap'|] eqn:Ha; [|done].
  intros [= <- <-] Hh0 Ho Hd.
  destruct (main_loops_payload_id _ _ _ _ Ho Hd) as (a & Hmem & <- & <-).
  pose proof (convert_rows_cells _ _ _ 0 h0 Ha eq_refl) as Hcells.
  pose proof (convert_rows_ids _ _ _ Ha) as Hids.
  assert (∀ j, 0 < j → (h0 :: hs) !! j ≠ Some h0) as Hlast.
  { intros [|j] Hj Hl; [lia|]. simpl in Hl. apply Hh0.
    by eapply list_elem_of_lookup_2. }
  specialize (Hcells Hlast).
  apply list_elem_of_lookup in Hmem as [k Hk].
  destruct (Forall2_lookup_r _ _ _ _ _ Hcells Hk) as (row & Hrow & Hcell & _).
  rewrite Hcell.
  apply (f_equal (λ l, l !! k)) in Hids.
  rewrite !list_lookup_fmap, Hrow, Hk in Hids. simpl in Hids. congruence.
Qed.


(** * Further properties of the operation stream *)

Lemma filter_none {A} (P : A → Prop) `{∀ x, Decision (P x)} (l : list A) :
  Forall (λ x, ¬ P x) l → filter P l = [].
Proof.
  induction 1 as [|x l Hx _ IH]; [done|]. by rewrite filter_cons_False.
Qed.

Lemma filter_all {A} (P : A → Prop) `{∀ x, Decision (P x)} (l : list A) :
  Forall P l → filter P l = l.
Proof.
  induction 1 as [|x l Hx _ IH]; [done|]. by rewrite filter_cons_True, IH.
Qed.

(** X8.  Whatever the two lists, duplicates included, a triple's kind
    tells where its id occurs: CREATE only for an id of after that is not
    in before, DELETE only for an id of before that is not in after,
    UPDATE only for an id in both; and the data is [None] for DELETE and
    only for DELETE. *)
Theorem main_kinds_sound (bp ap : list Product) :
  Forall (λ o,
    match op_kind o with
    | CREATE =>
        (op_id o ∉ pid <$> bp) ∧ (op_id o ∈ pid <$> ap) ∧ is_Some (op_payload o)
    | UPDATE =>
        (op_id o ∈ pid <$> bp) ∧ (op_id o ∈ pid <$> ap) ∧ is_Some (op_payload o)
    | DELETE =>
        (op_id o ∈ pid <$> bp) ∧ (op_id o ∉ pid <$> ap) ∧ op_payload o = None
    end) (main_loops bp ap).
Proof.
  unfold main_loops. rewrite create_operations_filter.
  apply Forall_app. split; apply Forall_fmap, Forall_forall.
  - intros b Hb. unfold compose, before_operation, op_kind, op_id, op_payload.
    destruct (find_suitable_product ap (pid b)) as [a|] eqn:Hf; simpl.
    + split; [by apply list_elem_of_fmap_2|]. split; [|by eexists].
      apply find_suitable_product_is_Some. by eexists.
    + split; [by apply list_elem_of_fmap_2|]. split; [|done].
      by apply find_suitable_product_None.
  - intros a [Ha Hmem]%list_elem_of_filter.
    unfold compose, op_kind, op_id, op_payload; simpl.
    split; [done|]. split; [by apply list_elem_of_fmap_2 | by eexists].
Qed.

(** X9.  A list diffed against itself yields one UPDATE per product and
    nothing else; when its ids are distinct each UPDATE carries the
    product's own data. *)
Theorem main_self_diff (ps : list Product) :
  length (main_loops ps ps) = length ps ∧
  Forall (λ o, op_kind o = UPDATE) (main_loops ps ps) ∧
  (NoDup (pid <$> ps) →
   main_loops ps ps = (λ p, (UPDATE, pid p, Some (pdata p))) <$> ps).
Proof.
  assert (create_operations ps ps = []) as Hcreate.
  { rewrite create_operations_filter, filter_none; [reflexivity|].
    apply Forall_forall. intros p Hp Hn. apply Hn. by apply list_elem_of_fmap_2. }
  unfold main_loops. rewrite Hcreate, app_nil_r, length_fmap.
  split; [done|]. split.
  - apply Forall_fmap, Forall_forall. intros p Hp.
    unfold compose, before_operation, op_kind.
    destruct (find_suitable_product ps (pid p)) eqn:Hf; [done|].
    apply find_suitable_product_None in Hf. destruct Hf.
    by apply list_elem_of_fmap_2.
  - intros Hnd. apply list_fmap_ext. intros k p Hk. unfold before_operation.
    rewrite find_suitable_product_unique; [done|done|].
    by eapply list_elem_of_lookup_2.
Qed.

Section kind_filters.
Implicit Types (bp ap : list Product).

Lemma create_operations_kind bp ap :
  Forall (λ o, op_kind o = CREATE) (create_operations bp ap).
Proof.
  rewrite create_operations_filter. apply Forall_fmap, Forall_forall.
  by intros a _.
Qed.

Lemma filter_kind_create_operations bp ap (k : Operation) :
  filter (λ o, op_kind o = k) (create_operations bp ap)
  = if decide (k = CREATE) then create_operations bp ap else [].
Proof.
  case_decide as Hk.
  - subst. apply filter_all, create_operations_kind.
  - apply filter_none. eapply Forall_impl; [apply create_operations_kind|].
    intros o Ho. simpl in *. congruence.
Qed.

Lemma filter_CREATE_before_operations bp ap :
  filter (λ o, op_kind o = CREATE) (before_operation ap <$> bp) = [].
Proof.
  apply filter_none, Forall_fmap, Forall_forall. intros b _.
  unfold compose. by destruct (op_kind_before_operation ap b) as [-> | ->].
Qed.

Lemma op_kind_before_operation_in ap b :
  pid b ∈ pid <$> ap → op_kind (before_operation ap b) = UPDATE.
Proof.
  intros [a Ha]%find_suitable_product_is_Some.
  unfold before_operation. by rewrite Ha.
Qed.

Lemma op_kind_before_operation_notin ap b :
  pid b ∉ pid <$> ap → op_kind (before_operation ap b) = DELETE.
Proof.
  intros Ha%find_suitable_product_None.
  unfold before_operation. by rewrite Ha.
Qed.

Lemma filter_DELETE_before_operations bp ap :
  op_id <$> filter (λ o, op_kind o = DELETE) (before_operation ap <$> bp)
  = list_difference (pid <$> bp) (pid <$> ap).
Proof.
  induction bp as [|b rest IH]; csimpl; [done|].
  destruct (decide_rel (∈) (pid b) (pid <$> ap)) as [Hin|Hnin].
  - rewrite filter_cons_False; [done|].
    by rewrite op_kind_before_operation_in.
  - rewrite filter_cons_True by by apply op_kind_before_operation_notin.
    csimpl. by rewrite op_id_before_operation, IH.
Qed.

Lemma length_filter_UPDATE_before_operations bp ap :
  length (filter (λ o, op_kind o = UPDATE) (before_operation ap <$> bp))
  = length (filter (.∈ pid <$> ap) (pid <$> bp)) ∧
  length (filter (λ o, op_kind o = UPDATE) (before_operation ap <$> bp))
  + length (filter (λ o, op_kind o = DELETE) (before_operation ap <$> bp))
  = length bp.
Proof.
  induction bp as [|b rest [IH1 IH2]]; csimpl; [done|].
  destruct (decide (pid b ∈ pid <$> ap)) as [Hin|Hnin].
  - pose proof (op_kind_before_operation_in ap b Hin) as Hk.
    rewrite (filter_cons_True (λ o, op_kind o = UPDATE)) by done.
    rewrite (filter_cons_False (λ o, op_kind o = DELETE)) by by rewrite Hk.
    rewrite (filter_cons_True (.∈ pid <$> ap)) by done.
    simpl. split; [by rewrite IH1 | by rewrite <- IH2].
  - pose proof (op_kind_before_operation_notin ap b Hnin) as Hk.
    rewrite (filter_cons_False (λ o, op_kind o = UPDATE)) by by rewrite Hk.
    rewrite (filter_cons_True (λ o, op_kind o = DELETE)) by done.
    rewrite (filter_cons_False (.∈ pid <$> ap)) by done.
    simpl. split; [done | rewrite <- IH2; lia].
Qed.

Lemma length_filter_partition (X : list string) (l : list string) :
  length (filter (.∈ X) l) + length (filter (.∉ X) l) = length l.
Proof.
  induction l as [|x l IH]; [done|]. rewrite !filter_cons.
  destruct (decide (x ∈ X)).
  - rewrite decide_False by auto. simpl. lia.
  - rewrite decide_True by done. simpl. lia.
Qed.

Lemma length_filter_common (X Y : list string) :
  NoDup X → NoDup Y → length (filter (.∈ Y) X) = length (filter (.∈ X) Y).
Proof.
  intros HX HY. apply Permutation_length, NoDup_Permutation.
  - by apply NoDup_filter.
  - by apply NoDup_filter.
  - intros x. rewrite !list_elem_of_filter. tauto.
Qed.
Lemma list_difference_filter (l k : list string) :
  list_difference l k = filter (.∉ k) l.
Proof.
  induction l as [|x l IH]; csimpl; [done|]. rewrite filter_cons.
  destruct (decide_rel (∈) x k) as [Hin|Hnin];
    destruct (decide (x ∉ k)) as [Hn|Hn]; try done; by rewrite IH.
Qed.
End kind_filters.

(** X10.  Turning the diff round turns the deletes into the creates: the
    ids deleted going from [bp] to [ap] are, in the same order, the ids
    created going from [ap] to [bp].  No assumption on the lists. *)
Theorem main_swap_delete_create (bp ap : list Product) :
  op_id <$> filter (λ o, op_kind o = DELETE) (main_loops bp ap)
  = op_id <$> filter (λ o, op_kind o = CREATE) (main_loops ap bp).
Proof.
  unfold main_loops.
  rewrite !filter_app, !filter_kind_create_operations.
  rewrite (decide_False (P := DELETE = CREATE)) by done.
  rewrite (decide_True (P := CREATE = CREATE)) by done.
  rewrite filter_CREATE_before_operations, app_nil_r. csimpl.
  by rewrite filter_DELETE_before_operations, op_id_create_operations.
Qed.

(** X11.  Every before product is answered once: the UPDATEs and the
    DELETEs together are as many as the before products, and the stream
    is at most as long as the two lists together.  No assumption on the
    lists. *)
Theorem main_counts_before (bp ap : list Product) :
  length (filter (λ o, op_kind o = UPDATE) (main_loops bp ap))
  + length (filter (λ o, op_kind o = DELETE) (main_loops bp ap))
  = length bp ∧
  length (main_loops bp ap)
  = length bp + length (filter (λ o, op_kind o = CREATE) (main_loops bp ap)) ∧
  length (main_loops bp ap) ≤ length bp + length ap.
Proof.
  pose proof (length_main_loops bp ap) as Hlen. revert Hlen.
  unfold main_loops.
  rewrite !filter_app, !filter_kind_create_operations.
  rewrite (decide_False (P := UPDATE = CREATE)) by done.
  rewrite (decide_False (P := DELETE = CREATE)) by done.
  rewrite (decide_True (P := CREATE = CREATE)) by done.
  rewrite filter_CREATE_before_operations, !app_nil_r. csimpl.
  rewrite length_app, length_fmap.
  destruct (length_filter_UPDATE_before_operations bp ap) as [_ ->].
  done.
Qed.

(** X12.  When no id occurs twice within a list, every after product is
    answered once as well: the UPDATEs and the CREATEs together are as
    many as the after products. *)
Theorem main_counts_after (bp ap : list Product) :
  NoDup (pid <$> bp) → NoDup (pid <$> ap) →
  length (filter (λ o, op_kind o = UPDATE) (main_loops bp ap))
  + length (filter (λ o, op_kind o = CREATE) (main_loops bp ap))
  = length ap.
Proof.
  intros Hbp Hap. unfold main_loops.
  rewrite !filter_app, !filter_kind_create_operations.
  rewrite (decide_False (P := UPDATE = CREATE)) by done.
  rewrite (decide_True (P := CREATE = CREATE)) by done.
  rewrite filter_CREATE_before_operations, app_nil_r. csimpl.
  destruct (length_filter_UPDATE_before_operations bp ap) as [-> _].
  rewrite (length_filter_common _ _ Hbp Hap).
  pose proof (length_filter_partition (pid <$> bp) (pid <$> ap)) as Hpart.
  rewrite length_fmap in Hpart. rewrite <- Hpart. f_equal.
  by rewrite <- (length_fmap op_id), op_id_create_operations,
    list_difference_filter.
Qed.

Lemma pull_consume (σ : store) (pc : position) (ops : list operation)
    (σ' : store) :
  consume σ pc ops σ' →
  ∀ n, (pull n σ pc).1.1 = take n ops ∧ (pull n σ pc).2 = σ.
Proof.
  induction 1 as [σ pc pc' σ' Hr|σ pc op pc' σ' ops σ'' Hr _ IH];
    intros [|n]; simpl; try done; rewrite Hr;
    pose proof (resume_store σ pc) as Hs; rewrite Hr in Hs; simpl in Hs; subst.
  - done.
  - destruct (IH n) as [IH1 IH2].
    destruct (pull n σ pc') as [[ops' pc''] σ2]. simpl in *. by subst.
Qed.

(** X13.  The stream is produced lazily and in order: a consumer that
    stops after [n] calls of [next] has received the first [n] triples of
    the full stream (all of them when there are fewer), and the two lists
    are untouched at that point. *)
Theorem pull_prefix (n : nat) (σ : store) :
  (pull n σ (BeforeLoop 0)).1.1
    = take n (main_loops (before_products σ) (after_products σ)) ∧
  (pull n σ (BeforeLoop 0)).2 = σ.
Proof.
  apply pull_consume with (σ' := σ). by apply consume_main_loops.
Qed.


(** X14.  Of the before file only the first cell of each row reaches the
    stream: two before files that both load against the same after file
    and agree on the first cell of every row give the same triples,
    whatever their headers and their other cells. *)
Theorem list_main_before_first_cells
    (hb hb' : list string) (rb rb' : list (list string))
    (after_csv : list (list string)) (bp bp' ap ap' : list Product) :
  prepare_data (hb :: rb) after_csv = Ok (bp, ap) →
  prepare_data (hb' :: rb') after_csv = Ok (bp', ap') →
  (λ product, product !! 0) <$> rb = (λ product, product !! 0) <$> rb' →
  list_main (hb :: rb) after_csv = list_main (hb' :: rb') after_csv.
Proof.
  intros Hload Hload' Hcells. rewrite !list_main_eq. unfold main.
  rewrite Hload, Hload'. simpl. f_equal.
  destruct after_csv as [|ha ra]; [done|].
  rewrite prepare_data_unfold in Hload, Hload'.
  destruct (convert_data_from_csv rb ha) as [x|] eqn:Hb; [|done].
  destruct (convert_data_from_csv rb' ha) as [x'|] eqn:Hb'; [|done].
  cbn [mbind result_bind] in Hload, Hload'.
  destruct (convert_data_from_csv ra ha) as [y|]; [|done].
  cbn [mbind result_bind] in Hload, Hload'. simplify_eq.
  apply main_loops_before_ids.
  apply convert_rows_ids in Hb, Hb'.
  rewrite Hcells, Hb' in Hb.
  change (λ p, Some (pid p)) with (Some ∘ pid) in Hb.
  rewrite !list_fmap_compose in Hb.
  by apply (inj (fmap Some)) in Hb.
Qed.

(** * The further theorems at concrete inputs *)

Lemma convert_data_from_csv_ids_witness :
  convert_data_from_csv [["1"; "A"]; ["2"; "B"]] ["id"; "name"]
    = Ok scenario_before ∧
  (λ product : list string, product !! 0) <$> [["1"; "A"]; ["2"; "B"]]
    = (λ p, Some (pid p)) <$> scenario_before.
Proof.
  assert (convert_data_from_csv [["1"; "A"]; ["2"; "B"]] ["id"; "name"]
          = Ok scenario_before) as Hc by (vm_compute; reflexivity).
  split; [exact Hc|].
  exact (convert_data_from_csv_ids _ _ _ Hc).
Defined.

(** Two columns are called ["name"]: the cell of the later one is kept. *)
Lemma convert_data_from_csv_cells_witness :
  convert_data_from_csv [["1"; "A"; "B"]] ["id"; "name"; "name"]
    = Ok [ {| pdata := {[ "id" := "1"; "name" := "B" ]}; pid := "1" |} ] ∧
  Forall2 (λ (product : list string) p,
             pdata p !! "name" = product !! 2 ∧ is_Some (product !! 2))
          [["1"; "A"; "B"]]
          [ {| pdata := {[ "id" := "1"; "name" := "B" ]}; pid := "1" |} ].
Proof.
  assert (convert_data_from_csv [["1"; "A"; "B"]] ["id"; "name"; "name"]
          = Ok [ {| pdata := {[ "id" := "1"; "name" := "B" ]}; pid := "1" |} ])
    as Hc by (vm_compute; reflexivity).
  split; [exact Hc|].
  apply (convert_data_from_csv_cells _ _ _ 2 "name" Hc); [reflexivity|].
  intros [|[|[|[|j]]]] Hj; simpl; (lia || done).
Defined.

Lemma main_payload_carries_id_witness :
  prepare_data scenario_before_csv scenario_after_csv
    = Ok (scenario_before, scenario_after) ∧
  ({[ "id" := "2"; "name" := "B2" ]} : gmap string string) !! "id" = Some "2".
Proof.
  assert (prepare_data scenario_before_csv scenario_after_csv
          = Ok (scenario_before, scenario_after)) as Hload
    by (vm_compute; reflexivity).
  split; [exact Hload|].
  refine (main_payload_carries_id _ _ "id" ["name"] _ _ _
            (UPDATE, "2", Some {[ "id" := "2"; "name" := "B2" ]}) _
            Hload _ _ _); [compute_done|compute_done|reflexivity].
Defined.

Lemma main_self_diff_witness :
  NoDup (pid <$> scenario_before) ∧
  main_loops scenario_before scenario_before
    = (λ p, (UPDATE, pid p, Some (pdata p))) <$> scenario_before.
Proof.
  assert (NoDup (pid <$> scenario_before)) as Hnd by compute_done.
  split; [exact Hnd|].
  destruct (main_self_diff scenario_before) as (_ & _ & Hown).
  exact (Hown Hnd).
Defined.

Lemma main_counts_after_witness :
  (NoDup (pid <$> scenario_before) ∧ NoDup (pid <$> scenario_after)) ∧
  length (filter (λ o, op_kind o = UPDATE)
            (main_loops scenario_before scenario_after))
  + length (filter (λ o, op_kind o = CREATE)
              (main_loops scenario_before scenario_after))
  = length scenario_after.
Proof.
  assert (NoDup (pid <$> scenario_before)) as Hb by compute_done.
  assert (NoDup (pid <$> scenario_after)) as Ha by compute_done.
  split; [done|].
  exact (main_counts_after scenario_before scenario_after Hb Ha).
Defined.

(** The second before file has another header and other names: the
    stream is the one of the scenario. *)
Lemma list_main_before_first_cells_witness :
  list_main (["sku"; "title"] :: [["1"; "x"]; ["2"; "y"]]) scenario_after_csv
  = list_main scenario_before_csv scenario_after_csv.
Proof.
  symmetry.
  refine (list_main_before_first_cells
            ["id"; "name"] ["sku"; "title"]
            [["1"; "A"]; ["2"; "B"]] [["1"; "x"]; ["2"; "y"]]
            scenario_after_csv
            scenario_before
            [ {| pdata := {[ "id" := "1"; "name" := "x" ]}; pid := "1" |};
              {| pdata := {[ "id" := "2"; "name" := "y" ]}; pid := "2" |} ]
            scenario_after scenario_after _ _ _);
    vm_compute; reflexivity.
Defined.


(** * The object level *)

Section heap_monad.
Context {A B : Type}.
Implicit Types (m : M A) (f : A → M B) (h : heap).

Lemma bind_Ok m f h a h' : m h = (Ok a, h') → (m ≫= f) h = f a h'.
Proof. intros Hm. unfold mbind, M_bind. by rewrite Hm. Qed.

Lemma bind_Raise m f h e h' : m h = (Raise e, h') → (m ≫= f) h = (Raise e, h').
Proof. intros Hm. unfold mbind, M_bind. by rewrite Hm. Qed.

Lemma reads_only_bind m f :
  reads_only m → (∀ a, reads_only (f a)) → reads_only (m ≫= f).
Proof.
  intros Hm Hf h. specialize (Hm h). unfold mbind, M_bind.
  destruct (m h) as [[a|e] h']; simpl in *; subst; [apply Hf|done].
Qed.
End heap_monad.

Lemma reads_only_ret {A} (a : A) : reads_only (mret a : M A).
Proof. by intros h. Qed.

Lemma reads_only_raise {A} (e : exn) : reads_only (raise e : M A).
Proof. by intros h. Qed.

Lemma reads_only_lift {A} (r : result A) : reads_only (lift r).
Proof. by intros h. Qed.

Lemma reads_only_heap_load (l : loc) : reads_only (heap_load l).
Proof. by intros h. Qed.

Create HintDb reads.

#[local] Hint Resolve reads_only_ret reads_only_raise reads_only_lift
  reads_only_heap_load : reads.

Lemma reads_only_getitem_id (product : loc) : reads_only (getitem_id product).
Proof.
  apply reads_only_bind; [auto with reads|]. intros []; auto with reads.
Qed.

Lemma reads_only_getitem_data (product : loc) : reads_only (getitem_data product).
Proof.
  apply reads_only_bind; [auto with reads|]. intros []; auto with reads.
Qed.

Lemma reads_only_list_items (products : loc) : reads_only (list_items products).
Proof.
  apply reads_only_bind; [auto with reads|]. intros []; auto with reads.
Qed.

#[local] Hint Resolve reads_only_getitem_id reads_only_getitem_data
  reads_only_list_items : reads.

Lemma reads_only_find_in (items : list loc) (match_id : string) :
  reads_only (find_in items match_id).
Proof.
  induction items as [|product rest IH]; simpl; [auto with reads|].
  apply reads_only_bind; [auto with reads|]. intros i.
  case_decide; auto with reads.
Qed.

Lemma reads_only_find_suitable_product_heap (products : loc) (match_id : string) :
  reads_only (find_suitable_product_heap products match_id).
Proof.
  apply reads_only_bind; [auto with reads|]. intros items.
  apply reads_only_find_in.
Qed.

#[local] Hint Resolve reads_only_find_suitable_product_heap : reads.

Lemma reads_only_next_create_heap (before_products : loc)
    (after_rest : list loc) (j : nat) :
  reads_only (next_create_heap before_products after_rest j).
Proof.
  revert j. induction after_rest as [|a rest IH]; intros j; simpl;
    [auto with reads|].
  apply reads_only_bind; [auto with reads|]. intros i.
  apply reads_only_bind; [auto with reads|]. intros [sp|]; [apply IH|].
  apply reads_only_bind; [auto with reads|]. intros i'.
  apply reads_only_bind; [auto with reads|]. intros d. auto with reads.
Qed.

Lemma reads_only_resume_after_heap (f : frame) (j : nat) :
  reads_only (resume_after_heap f j).
Proof.
  apply reads_only_bind; [auto with reads|]. intros items.
  apply reads_only_bind; [apply reads_only_next_create_heap|].
  intros [[t j']|]; auto with reads.
Qed.

(** The loops of [main] never write: whatever the heap holds, and
    whether the resumption yields, ends or raises, the heap is left as it
    was found. *)
Lemma reads_only_resume_heap (f : frame) : reads_only (resume_heap f).
Proof.
  unfold resume_heap. destruct (resume_at f) as [i|j|].
  - apply reads_only_bind; [auto with reads|]. intros items.
    destruct (items !! i) as [b|]; [|apply reads_only_resume_after_heap].
    apply reads_only_bind; [auto with reads|]. intros i0.
    apply reads_only_bind; [auto with reads|]. intros [sp|].
    + apply reads_only_bind; [auto with reads|]. intros i1.
      apply reads_only_bind; [auto with reads|]. intros d. auto with reads.
    + apply reads_only_bind; [auto with reads|]. intros i1. auto with reads.
  - apply reads_only_resume_after_heap.
  - auto with reads.
Qed.

(** ** The loops on a heap that holds the two lists *)

Section loops_on_heap.
Context (h : heap) (lb la : loc) (items_b items_a : list loc)
        (bp ap : list Product).
Hypothesis Hlb : h !! lb = Some (ListObj items_b).
Hypothesis Hla : h !! la = Some (ListObj items_a).
Hypothesis Hbp : Forall2 (repr_product h) items_b bp.
Hypothesis Hap : Forall2 (repr_product h) items_a ap.

Lemma getitem_id_repr (l : loc) (p : Product) :
  repr_product h l p → getitem_id l h = (Ok (pid p), h).
Proof.
  intros (d & Hl & _). unfold getitem_id, heap_load.
  unfold mbind, M_bind. by rewrite Hl.
Qed.

Lemma getitem_data_repr (l : loc) (p : Product) :
  repr_product h l p →
  ∃ d, getitem_data l h = (Ok d, h) ∧ h !! l = Some (ProductObj d (pid p))
       ∧ h !! d = Some (DictObj (pdata p)).
Proof.
  intros (d & Hl & Hd). exists d. split; [|done].
  unfold getitem_data, heap_load. unfold mbind, M_bind. by rewrite Hl.
Qed.

Lemma list_items_eval (l : loc) (items : list loc) :
  h !! l = Some (ListObj items) → list_items l h = (Ok items, h).
Proof.
  intros Hl. unfold list_items, heap_load. unfold mbind, M_bind. by rewrite Hl.
Qed.

Lemma find_in_repr (items : list loc) (ps : list Product) (match_id : string) :
  Forall2 (repr_product h) items ps →
  ∃ r, find_in items match_id h = (Ok r, h) ∧
       option_Forall2 (λ l p, repr_product h l p ∧ l ∈ items)
                      r (find_suitable_product ps match_id).
Proof.
  induction 1 as [|l p items ps Hl _ IH]; simpl.
  - exists None. split; [done|constructor].
  - rewrite (bind_Ok _ _ _ _ _ (getitem_id_repr _ _ Hl)).
    case_decide.
    + exists (Some l). split; [done|]. constructor. split; [done|by left].
    + destruct IH as (r & -> & Hr). exists r. split; [done|].
      destruct Hr as [l' p' [? ?]|]; constructor. split; [done|by right].
Qed.

Lemma find_suitable_product_heap_repr (l : loc) (items : list loc)
    (ps : list Product) (match_id : string) :
  h !! l = Some (ListObj items) → Forall2 (repr_product h) items ps →
  ∃ r, find_suitable_product_heap l match_id h = (Ok r, h) ∧
       option_Forall2 (λ l p, repr_product h l p ∧ l ∈ items)
                      r (find_suitable_product ps match_id).
Proof.
  intros Hl Hps. unfold find_suitable_product_heap.
  rewrite (bind_Ok _ _ _ _ _ (list_items_eval _ _ Hl)).
  by apply find_in_repr.
Qed.

Lemma next_create_heap_repr (rest : list loc) (rest_ps : list Product) (j : nat) :
  Forall2 (repr_product h) rest rest_ps → rest ⊆ items_a →
  ∃ r, next_create_heap lb rest j h = (Ok r, h) ∧
       option_Forall2 (λ x y, yields_live h items_a x.1 y.1 ∧ x.2 = y.2)
                      r (next_create bp rest_ps j).
Proof.
  intros Hrest. revert j.
  induction Hrest as [|l p rest rest_ps Hl _ IH]; intros j Hsub; simpl.
  - exists None. split; [done|constructor].
  - rewrite (bind_Ok _ _ _ _ _ (getitem_id_repr _ _ Hl)).
    destruct (find_suitable_product_heap_repr lb items_b bp (pid p) Hlb Hbp)
      as (r & Hr & Hrel).
    rewrite (bind_Ok _ _ _ _ _ Hr).
    destruct Hrel as [l' p' _|].
    + apply IH. intros x Hx. apply Hsub. by right.
    + rewrite (bind_Ok _ _ _ _ _ (getitem_id_repr _ _ Hl)).
      destruct (getitem_data_repr _ _ Hl) as (d & Hd & Hobj & Hdict).
      rewrite (bind_Ok _ _ _ _ _ Hd).
      eexists. split; [done|]. constructor. split; [|done]. split.
      * simpl. by rewrite Hdict.
      * simpl. intros d' [= <-]. exists l. split; [|done].
        apply Hsub. by left.
Qed.

Lemma resume_after_heap_repr (pc : position) (j : nat) :
  ∃ t, resume_after_heap {| before_products_ref := lb; after_products_ref := la;
                            resume_at := pc |} j h
       = (Ok (t, (resume_after {| before_products := bp; after_products := ap |} j).1.2), h) ∧
       option_Forall2 (yields_live h items_a) t
         (resume_after {| before_products := bp; after_products := ap |} j).1.1.
Proof.
  unfold resume_after_heap, resume_after. simpl.
  rewrite (bind_Ok _ _ _ _ _ (list_items_eval _ _ Hla)).
  destruct (next_create_heap_repr (drop j items_a) (drop j ap) j) as (r & Hr & Hrel).
  { by apply Forall2_drop. }
  { apply subseteq_drop. }
  rewrite (bind_Ok _ _ _ _ _ Hr).
  destruct Hrel as [[t j'] [op j''] [Hlive Hj]|]; simpl in *; subst.
  - eexists. split; [done|]. by constructor.
  - eexists. split; [done|]. constructor.
Qed.

(** One resumption of the object-level generator does what the
    value-level one does, and leaves the heap alone. *)
Lemma resume_heap_repr (pc : position) :
  ∃ t, resume_heap {| before_products_ref := lb; after_products_ref := la;
                      resume_at := pc |} h
       = (Ok (t, (resume {| before_products := bp; after_products := ap |} pc).1.2), h) ∧
       option_Forall2 (yields_live h items_a) t
         (resume {| before_products := bp; after_products := ap |} pc).1.1.
Proof.
  unfold resume_heap, resume. simpl. destruct pc as [i|j|].
  - rewrite (bind_Ok _ _ _ _ _ (list_items_eval _ _ Hlb)).
    destruct (items_b !! i) as [b|] eqn:Hb.
    + destruct (Forall2_lookup_l _ _ _ _ _ Hbp Hb) as (p & Hp & Hrepr).
      rewrite Hp.
      rewrite (bind_Ok _ _ _ _ _ (getitem_id_repr _ _ Hrepr)).
      destruct (find_suitable_product_heap_repr la items_a ap (pid p) Hla Hap)
        as (r & Hr & Hrel).
      rewrite (bind_Ok _ _ _ _ _ Hr). unfold before_operation.
      destruct (find_suitable_product ap (pid p)) as [p'|] eqn:Hf;
        inversion Hrel as [l' ? [Hl' Hmem]|]; subst.
      * rewrite (bind_Ok _ _ _ _ _ (getitem_id_repr _ _ Hrepr)).
        destruct (getitem_data_repr _ _ Hl') as (d & Hd & Hobj & Hdict).
        rewrite (bind_Ok _ _ _ _ _ Hd).
        apply find_suitable_product_pid in Hf as [Hid _].
        eexists. split; [done|]. constructor. split.
        -- simpl. by rewrite Hdict.
        -- simpl. intros d' [= <-]. exists l'. split; [done|].
           by rewrite Hobj, Hid.
      * rewrite (bind_Ok _ _ _ _ _ (getitem_id_repr _ _ Hrepr)).
        eexists. split; [done|]. constructor. split; [done|]. by intros d.
    + assert (bp !! i = None) as ->.
      { apply lookup_ge_None. rewrite <- (Forall2_length _ _ _ Hbp).
        by apply lookup_ge_None. }
      by apply resume_after_heap_repr.
  - by apply resume_after_heap_repr.
  - eexists. split; [done|]. constructor.
Qed.

(** [list] over the suspended generator receives references that show as
    the value-level triples, each a live dict of an after product, and
    leaves the heap as it was. *)
Lemma gen_list_repr (fuel : nat) (pc : position) (ops : list operation)
    (σ' : store) :
  drain fuel {| before_products := bp; after_products := ap |} pc = Some (ops, σ') →
  ∃ ts, gen_list fuel (Suspended {| before_products_ref := lb;
                                    after_products_ref := la;
                                    resume_at := pc |}) h = Some (Ok ts, h) ∧
        Forall2 (yields_live h items_a) ts ops.
Proof.
  revert pc ops. induction fuel as [|fuel IH]; intros pc ops; simpl; [done|].
  destruct (resume_heap_repr pc) as (t & Ht & Hrel).
  unfold run_frame. rewrite Ht.
  pose proof (resume_store {| before_products := bp; after_products := ap |} pc) as Hs.
  destruct (resume {| before_products := bp; after_products := ap |} pc)
    as [[o pc'] σ1]; simpl in *; subst.
  inversion Hrel as [t' op Hlive|]; subst.
  - destruct (drain fuel _ pc') as [[ops' σ2]|] eqn:Hd; simpl; [|done].
    intros [= <- <-]. destruct (IH _ _ Hd) as (ts & -> & Hts).
    eexists. split; [done|]. by constructor.
  - intros [= <- <-]. eexists. split; [done|]. constructor.
Qed.
End loops_on_heap.

(** ** The loader on the heap *)

Section loader_on_heap.
Implicit Types (h : heap) (headers product : list string).

Lemma bind_lift_Ok {A B} (a : A) (f : A → M B) h :
  (lift (Ok a) ≫= f) h = f a h.
Proof. done. Qed.

Lemma bind_lift_Raise {A B} (e : exn) (f : A → M B) h :
  (lift (Raise e) ≫= f) h = (Raise e, h).
Proof. done. Qed.

Lemma bind_heap_alloc {B} (o : object) (f : loc → M B) h :
  (heap_alloc o ≫= f) h = f (length h) (h ++ [o]).
Proof. done. Qed.

Lemma getitem_data_eval h l d i :
  h !! l = Some (ProductObj d i) → getitem_data l h = (Ok d, h).
Proof.
  intros Hl. unfold getitem_data, heap_load. unfold mbind, M_bind. by rewrite Hl.
Qed.

Lemma dict_setitem_eval h d m k v :
  h !! d = Some (DictObj m) →
  dict_setitem d k v h = (Ok (), <[d := DictObj (<[k:=v]> m)]> h).
Proof.
  intros Hd. unfold dict_setitem, heap_load. unfold mbind, M_bind. by rewrite Hd.
Qed.

Lemma list_append_eval h l items x :
  h !! l = Some (ListObj items) →
  list_append l x h = (Ok (), <[l := ListObj (items ++ [x])]> h).
Proof.
  intros Hl. unfold list_append, heap_load. unfold mbind, M_bind. by rewrite Hl.
Qed.

Lemma fill_data_heap_spec idxs headers product pl d i m h :
  h !! pl = Some (ProductObj d i) → h !! d = Some (DictObj m) →
  ∃ m', fill_data_heap idxs headers product pl h
        = (match fill_data idxs headers product m with
           | Ok _ => Ok ()
           | Raise e => Raise e
           end, <[d := DictObj m']> h) ∧
        ∀ mf, fill_data idxs headers product m = Ok mf → m' = mf.
Proof.
  revert m h. induction idxs as [|idx idxs IH]; intros m h Hpl Hd; simpl.
  - exists m. rewrite list_insert_id by done. split; [done|]. by intros mf [= <-].
  - destruct (getitem product idx) as [v|e].
    2:{ exists m. rewrite list_insert_id by done. done. }
    rewrite bind_lift_Ok, (bind_Ok _ _ _ _ _ (getitem_data_eval _ _ _ _ Hpl)).
    destruct (getitem headers idx) as [hd|e].
    2:{ exists m. rewrite list_insert_id by done. done. }
    rewrite bind_lift_Ok, (bind_Ok _ _ _ _ _ (dict_setitem_eval _ _ _ hd v Hd)).
    cbn [mbind result_bind].
    assert (pl ≠ d) as Hne.
    { intros Heq. rewrite Heq in Hpl. rewrite Hpl in Hd. discriminate. }
    assert (d < length h) as Hlt by by eapply lookup_lt_Some.
    destruct (IH (<[hd:=v]> m) (<[d := DictObj (<[hd:=v]> m)]> h)) as (m' & Heq & Hm').
    { by rewrite list_lookup_insert_ne. }
    { by rewrite list_lookup_insert_eq. }
    exists m'. by rewrite Heq, list_insert_insert_eq.
Qed.

Lemma repr_product_preserved h h' l items x q :
  h !! l = Some (ListObj items) →
  (∀ y, y < length h → y ≠ l → h' !! y = h !! y) →
  repr_product h x q → repr_product h' x q.
Proof.
  intros Hl Hpres (d & Hx & Hd). exists d. split.
  - rewrite Hpres; [done|by eapply lookup_lt_Some|].
    intros Heq. rewrite Heq, Hl in Hx. discriminate.
  - rewrite Hpres; [done|by eapply lookup_lt_Some|].
    intros Heq. rewrite Heq, Hl in Hd. discriminate.
Qed.

Lemma convert_rows_heap_spec rows failure headers l h items ps0 :
  h !! l = Some (ListObj items) → Forall2 (repr_product h) items ps0 →
  ∃ res h', convert_rows_heap rows failure headers l h = (res, h') ∧
    length h ≤ length h' ∧
    (∀ x, x < length h → x ≠ l → h' !! x = h !! x) ∧
    res = match convert_data_from_csv rows headers with
          | Raise e => Raise e
          | Ok _ => match failure with Some e => Raise e | None => Ok () end
          end ∧
    ∀ ps, convert_data_from_csv rows headers = Ok ps →
          ∃ items', h' !! l = Some (ListObj (items ++ items')) ∧
                    Forall2 (repr_product h') (items ++ items') (ps0 ++ ps).
Proof.
  revert h items ps0.
  induction rows as [|product rest IH]; intros h items ps0 Hl Hitems; simpl.
  - exists (match failure with Some e => Raise e | None => Ok () end), h.
    split; [by destruct failure|]. split; [done|]. split; [done|].
    split; [done|]. intros ps [= <-]. exists []. by rewrite !app_nil_r.
  - assert (l < length h) as Hllt by by eapply lookup_lt_Some.
    rewrite bind_heap_alloc. unfold convert_row.
    set (d := length h). set (h1 := h ++ [DictObj ∅]).
    assert (∀ x, x < length h → h1 !! x = h !! x) as Hh1
      by (intros x Hx; by apply lookup_app_l).
    destruct (getitem product 0) as [i|e]; cbn [mbind result_bind].
    2:{ rewrite bind_lift_Raise. exists (Raise e), h1.
        split; [done|]. unfold h1. rewrite length_app. simpl.
        split; [lia|]. split; [by auto|]. done. }
    rewrite bind_lift_Ok, bind_heap_alloc.
    set (pl := length h1). set (h2 := h1 ++ [ProductObj d i]).
    assert (length h1 = S (length h)) as Hlen1
      by (unfold h1; rewrite length_app; simpl; lia).
    assert (length h2 = S (S (length h))) as Hlen2
      by (unfold h2; rewrite length_app; simpl; lia).
    assert (h2 !! pl = Some (ProductObj d i)) as Hpl
      by (unfold h2, pl; by rewrite lookup_app_r, Nat.sub_diag by lia).
    assert (h2 !! d = Some (DictObj ∅)) as Hd.
    { unfold h2. rewrite lookup_app_l by lia.
      unfold h1, d. by rewrite lookup_app_r, Nat.sub_diag by lia. }
    destruct (fill_data_heap_spec (seq 0 (length headers)) headers product
                pl d i ∅ h2 Hpl Hd) as (m' & Hfill & Hm').
    assert (∀ x, x < length h → <[d := DictObj m']> h2 !! x = h !! x) as Hh3.
    { intros x Hx. rewrite list_lookup_insert_ne by (unfold d; lia).
      unfold h2. rewrite lookup_app_l by lia. by apply Hh1. }
    destruct (fill_data (seq 0 (length headers)) headers product ∅) as [mf|e];
      cbn [mbind result_bind].
    2:{ rewrite (bind_Raise _ _ _ _ _ Hfill). eexists _, _. split; [done|].
        rewrite length_insert. split; [lia|]. split; [by auto|]. done. }
    rewrite (bind_Ok _ _ _ _ _ Hfill). rewrite (Hm' mf eq_refl) in *.
    set (h3 := <[d := DictObj mf]> h2) in *.
    assert (h3 !! l = Some (ListObj items)) as Hl3 by by rewrite Hh3.
    rewrite (bind_Ok _ _ _ _ _ (list_append_eval _ _ _ pl Hl3)).
    set (h4 := <[l := ListObj (items ++ [pl])]> h3).
    assert (length h4 = S (S (length h))) as Hlen4
      by (unfold h4, h3; by rewrite !length_insert).
    assert (∀ x, x < length h → x ≠ l → h4 !! x = h !! x) as Hh4.
    { intros x Hx Hne. unfold h4. rewrite list_lookup_insert_ne by done.
      by apply Hh3. }
    set (p := {| pdata := mf; pid := i |}).
    destruct (IH h4 (items ++ [pl]) (ps0 ++ [p])) as (res & h' & Hrun & Hlen & Hpres & Hres & Hrepr).
    { unfold h4. rewrite list_lookup_insert_eq; [done|].
      unfold h3. rewrite length_insert. lia. }
    { apply Forall2_app.
      - eapply Forall2_impl; [done|]. intros x q Hxq.
        by eapply (repr_product_preserved h h4 l items).
      - constructor; [|constructor]. exists d. split.
        + unfold h4. rewrite list_lookup_insert_ne by (unfold pl; lia).
          unfold h3. by rewrite list_lookup_insert_ne by (unfold pl, d; lia).
        + unfold h4. rewrite list_lookup_insert_ne by (unfold d; lia).
          unfold h3. rewrite list_lookup_insert_eq; [done|]. unfold d. lia. }
    exists res, h'. split; [done|]. split; [lia|]. split.
    { intros x Hx Hne. rewrite Hpres by lia. by apply Hh4. }
    split.
    { rewrite Hres. by destruct (convert_data_from_csv rest headers). }
    intros ps Hps.
    destruct (convert_data_from_csv rest headers) as [ps'|] eqn:Hrest; [|done].
    cbn [mbind result_bind] in Hps. injection Hps as <-.
    destruct (Hrepr ps' eq_refl) as (items' & Hl' & Hall).
    exists (pl :: items').
    rewrite <- (assoc_L (++) items) in Hl', Hall.
    rewrite <- (assoc_L (++) ps0) in Hall.
    split; [exact Hl'|exact Hall].
Qed.
End loader_on_heap.

Section loader_refinement.
Implicit Types (h : heap) (headers : list string).

Lemma repr_list_preserved h h' l ps :
  (∀ x, x < length h → h' !! x = h !! x) →
  repr_list h l ps → repr_list h' l ps.
Proof.
  intros Hpres (items & Hl & Hitems). exists items. split.
  - rewrite Hpres; [done|by eapply lookup_lt_Some].
  - eapply Forall2_impl; [done|]. intros x q (d & Hx & Hd). exists d.
    split; (rewrite Hpres; [done|by eapply lookup_lt_Some]).
Qed.

(** The object-level conversion allocates and fills new objects only, and
    what it returns holds the products of the value-level conversion. *)
Lemma convert_data_from_csv_heap_spec (csv_products : csv_reader) headers h :
  ∃ res h', convert_data_from_csv_heap csv_products headers h = (res, h') ∧
    length h ≤ length h' ∧
    (∀ x, x < length h → h' !! x = h !! x) ∧
    match convert_data_from_reader csv_products headers with
    | Raise e => res = Raise e
    | Ok ps => ∃ l, res = Ok l ∧ repr_list h' l ps
    end.
Proof.
  unfold convert_data_from_csv_heap, convert_data_from_reader.
  rewrite bind_heap_alloc.
  destruct (convert_rows_heap_spec (delivered csv_products) (failure csv_products)
              headers (length h) (h ++ [ListObj []]) [] [])
    as (res & h' & Hrun & Hlen & Hpres & Hres & Hrepr).
  { by rewrite lookup_app_r, Nat.sub_diag by lia. }
  { constructor. }
  rewrite length_app in Hlen, Hpres. simpl in Hlen, Hpres.
  assert (∀ x, x < length h → h' !! x = h !! x) as Hold.
  { intros x Hx. rewrite Hpres by lia. by apply lookup_app_l. }
  destruct (convert_data_from_csv (delivered csv_products) headers) as [ps|e];
    cbn [mbind result_bind].
  - destruct (failure csv_products) as [e|]; subst res.
    + rewrite (bind_Raise _ _ _ _ _ Hrun). eexists _, _.
      split; [done|]. split; [lia|]. by split.
    + rewrite (bind_Ok _ _ _ _ _ Hrun). eexists _, _.
      split; [done|]. split; [lia|]. split; [done|].
      destruct (Hrepr ps eq_refl) as (items & Hl & Hitems).
      eexists. split; [done|]. by exists items.
  - subst res. rewrite (bind_Raise _ _ _ _ _ Hrun). eexists _, _.
    split; [done|]. split; [lia|]. by split.
Qed.

Lemma prepare_data_heap_spec (before_csv_reader after_csv_reader : csv_reader) h :
  ∃ res h', prepare_data_heap before_csv_reader after_csv_reader h = (res, h') ∧
    length h ≤ length h' ∧
    (∀ x, x < length h → h' !! x = h !! x) ∧
    match prepare_data_from_readers before_csv_reader after_csv_reader with
    | Raise e => res = Raise e
    | Ok (bp, ap) =>
        ∃ lb la, res = Ok (lb, la) ∧ repr_list h' lb bp ∧ repr_list h' la ap
    end.
Proof.
  unfold prepare_data_heap, prepare_data_from_readers.
  destruct (next_reader before_csv_reader) as [[hb rb]|e]; cbn [mbind result_bind].
  2:{ rewrite bind_lift_Raise. by eexists _, _. }
  rewrite bind_lift_Ok.
  destruct (next_reader after_csv_reader) as [[ha ra]|e]; cbn [mbind result_bind].
  2:{ rewrite bind_lift_Raise. by eexists _, _. }
  rewrite bind_lift_Ok.
  destruct (convert_data_from_csv_heap_spec rb ha h)
    as (res1 & h1 & Hrun1 & Hlen1 & Hpres1 & Hres1).
  destruct (convert_data_from_reader rb ha) as [bp|e]; cbn [mbind result_bind].
  2:{ subst res1. rewrite (bind_Raise _ _ _ _ _ Hrun1). by eexists _, _. }
  destruct Hres1 as (lb & -> & Hlb).
  rewrite (bind_Ok _ _ _ _ _ Hrun1).
  destruct (convert_data_from_csv_heap_spec ra ha h1)
    as (res2 & h2 & Hrun2 & Hlen2 & Hpres2 & Hres2).
  assert (∀ x, x < length h → h2 !! x = h !! x) as Hold.
  { intros x Hx. rewrite Hpres2 by lia. by apply Hpres1. }
  destruct (convert_data_from_reader ra ha) as [ap|e]; cbn [mbind result_bind].
  2:{ subst res2. rewrite (bind_Raise _ _ _ _ _ Hrun2). eexists _, _.
      split; [done|]. split; [lia|]. by split. }
  destruct Hres2 as (la & -> & Hla).
  rewrite (bind_Ok _ _ _ _ _ Hrun2). eexists _, _.
  split; [done|]. split; [lia|]. split; [done|].
  exists lb, la. split; [done|]. split; [|done].
  by apply (repr_list_preserved h1 h2).
Qed.

Lemma convert_rows_length (csv_products : list (list string)) headers
    (products : list Product) :
  convert_data_from_csv csv_products headers = Ok products →
  length products = length csv_products.
Proof.
  intros Hc%convert_rows_ids. apply (f_equal length) in Hc.
  by rewrite !length_fmap in Hc.
Qed.

Lemma prepare_data_from_readers_length
    (before_csv_reader after_csv_reader : csv_reader) (bp ap : list Product) :
  prepare_data_from_readers before_csv_reader after_csv_reader = Ok (bp, ap) →
  length bp + length ap
  ≤ length (delivered before_csv_reader) + length (delivered after_csv_reader).
Proof.
  unfold prepare_data_from_readers, next_reader, convert_data_from_reader.
  destruct (delivered before_csv_reader) as [|hb rb];
    [by destruct (failure before_csv_reader)|].
  destruct (delivered after_csv_reader) as [|ha ra];
    [by destruct (failure after_csv_reader)|].
  cbn [mbind result_bind]. simpl.
  destruct (convert_data_from_csv rb ha) as [x|] eqn:Hb; [|done].
  cbn [mbind result_bind].
  destruct (failure before_csv_reader); [done|]. cbn [mbind result_bind].
  destruct (convert_data_from_csv ra ha) as [y|] eqn:Ha; [|done].
  cbn [mbind result_bind].
  destruct (failure after_csv_reader); [done|]. intros [= <- <-].
  apply convert_rows_length in Hb, Ha. lia.
Qed.
End loader_refinement.

(** ** The whole run on the heap *)

Lemma yields_live_render (h : heap) (after_items : list loc)
    (ts : list reference_triple) (ops : list operation) :
  Forall2 (yields_live h after_items) ts ops → mapM (render h) ts = Some ops.
Proof.
  intros Hall. apply mapM_Some. eapply Forall2_impl; [done|]. by intros t op [? _].
Qed.

(** Consuming the suspended generator over two lists held in the heap:
    it terminates, the heap is afterwards the heap it started in, and the
    references received show as the value-level stream, each data being
    the live dict of an after product. *)
Lemma gen_list_main_loops (h : heap) (lb la : loc) (items_a : list loc)
    (bp ap : list Product) (fuel : nat) :
  repr_list h lb bp → h !! la = Some (ListObj items_a) →
  Forall2 (repr_product h) items_a ap →
  length bp + length ap < fuel →
  ∃ ts, gen_list fuel (Suspended {| before_products_ref := lb;
                                    after_products_ref := la;
                                    resume_at := BeforeLoop 0 |}) h
        = Some (Ok ts, h) ∧
        Forall2 (yields_live h items_a) ts (main_loops bp ap).
Proof.
  intros (items_b & Hlb & Hbp) Hla Hap Hfuel.
  apply (gen_list_repr h lb la items_b items_a bp ap Hlb Hla Hbp Hap fuel
           (BeforeLoop 0) (main_loops bp ap)
           {| before_products := bp; after_products := ap |}).
  apply consume_drain.
  - by apply consume_main_loops.
  - pose proof (length_main_loops bp ap). lia.
Qed.

Lemma gen_list_unstarted (fuel : nat) (before_csv_reader after_csv_reader : csv_reader)
    (h h' : heap) (lb la : loc) :
  prepare_data_heap before_csv_reader after_csv_reader h = (Ok (lb, la), h') →
  gen_list fuel (Unstarted before_csv_reader after_csv_reader) h
  = gen_list fuel (Suspended {| before_products_ref := lb;
                                after_products_ref := la;
                                resume_at := BeforeLoop 0 |}) h'.
Proof. intros Hload. destruct fuel; simpl; [done|]. by rewrite Hload. Qed.

(** The run of [main] from any heap: it terminates within the bound,
    touches nothing that was in the heap before, and shows to the consumer
    what the value-level reading of the two readers gives. *)
Lemma list_main_heap_refines (before_csv_reader after_csv_reader : csv_reader)
    (h : heap) :
  list_main_heap before_csv_reader after_csv_reader h
  = Some (list_main_from_readers before_csv_reader after_csv_reader).
Proof.
  unfold list_main_heap, list_main_from_readers.
  destruct (prepare_data_heap_spec before_csv_reader after_csv_reader h)
    as (res & h' & Hrun & _ & _ & Hres).
  pose proof (prepare_data_from_readers_length before_csv_reader after_csv_reader)
    as Hlen.
  destruct (prepare_data_from_readers before_csv_reader after_csv_reader)
    as [[bp ap]|e].
  - destruct Hres as (lb & la & -> & Hlb & (items_a & Hla & Hap)).
    rewrite (gen_list_unstarted _ _ _ _ _ _ _ Hrun).
    specialize (Hlen bp ap eq_refl).
    destruct (gen_list_main_loops h' lb la items_a bp ap
                (S (length (delivered before_csv_reader)
                    + length (delivered after_csv_reader))) Hlb Hla Hap)
      as (ts & -> & Hts); [lia|].
    by rewrite (yields_live_render _ _ _ _ Hts).
  - subst res. simpl. rewrite Hrun. by destruct e.
Qed.


(** The whole run, loader included, from any heap: it terminates within
    the bound and every object that was in the heap before is afterwards
    what it was; the run writes only to objects it allocated itself. *)
Lemma gen_list_run_frame (before_csv_reader after_csv_reader : csv_reader)
    (h : heap) :
  ∃ res h',
    gen_list (S (length (delivered before_csv_reader)
                 + length (delivered after_csv_reader)))
             (Unstarted before_csv_reader after_csv_reader) h = Some (res, h') ∧
    length h ≤ length h' ∧
    ∀ x, x < length h → h' !! x = h !! x.
Proof.
  destruct (prepare_data_heap_spec before_csv_reader after_csv_reader h)
    as (res & h' & Hrun & Hlen & Hpres & Hres).
  pose proof (prepare_data_from_readers_length before_csv_reader after_csv_reader)
    as Hbound.
  destruct (prepare_data_from_readers before_csv_reader after_csv_reader)
    as [[bp ap]|e].
  - destruct Hres as (lb & la & -> & Hlb & (items_a & Hla & Hap)).
    rewrite (gen_list_unstarted _ _ _ _ _ _ _ Hrun).
    specialize (Hbound bp ap eq_refl).
    destruct (gen_list_main_loops h' lb la items_a bp ap
                (S (length (delivered before_csv_reader)
                    + length (delivered after_csv_reader))) Hlb Hla Hap)
      as (ts & -> & _); [lia|].
    by eexists _, _.
  - subst res. simpl. rewrite Hrun. destruct e; by eexists _, _.
Qed.

(** * Frame and two-run properties of the run on the heap *)

(** The data of a yielded triple is the dict the after product refers to:
    a consumer that stores into it changes that product's field mapping.
    [main] itself never does ([reads_only_resume_heap]). *)
Lemma live_payload_write (h : heap) (after_items : list loc)
    (t : reference_triple) (op : operation) (d : loc) (k v : string) :
  yields_live h after_items t op → t.2 = Some d →
  ∃ product entries,
    product ∈ after_items ∧
    h !! product = Some (ProductObj d t.1.2) ∧
    op.2 = Some entries ∧
    (dict_setitem d k v h).2 !! product = Some (ProductObj d t.1.2) ∧
    (dict_setitem d k v h).2 !! d = Some (DictObj (<[k:=v]> entries)).
Proof.
  intros [Hrender Hlive] Ht. destruct (Hlive d Ht) as (product & Hmem & Hobj).
  destruct t as [[kind i] payload]. simpl in *. subst payload.
  destruct (h !! d) as [[entries| |]|] eqn:Hd; try done.
  injection Hrender as <-.
  exists product, entries. split; [done|]. split; [done|]. split; [done|].
  rewrite (dict_setitem_eval _ _ _ k v Hd). simpl.
  assert (product ≠ d) as Hne.
  { intros Heq. rewrite Heq, Hd in Hobj. discriminate. }
  split.
  - by rewrite list_lookup_insert_ne.
  - rewrite list_lookup_insert_eq; [done|]. by eapply lookup_lt_Some.
Qed.

(** C7 (no mutation).  Take any heap that holds the two lists.  Consuming
    the generator to exhaustion terminates and leaves that heap exactly as
    it was, so both lists still hold the same products with the same ids
    and field mappings in the same order, although every data yielded is
    the live dict of an after product and not a copy.  More generally no
    resumption of the loops writes to any heap at all, and the whole run
    of [main] from its start, whose loader does write, leaves every object
    that existed before the run as it was. *)
Theorem main_leaves_record_sets (h : heap) (lb la : loc) (bp ap : list Product) :
  repr_list h lb bp → repr_list h la ap →
  (∃ ts h' after_items,
     gen_list (S (length bp + length ap))
       (Suspended {| before_products_ref := lb; after_products_ref := la;
                     resume_at := BeforeLoop 0 |}) h = Some (Ok ts, h') ∧
     h' = h ∧ repr_list h' lb bp ∧ repr_list h' la ap ∧
     h !! la = Some (ListObj after_items) ∧
     Forall2 (yields_live h after_items) ts (main_loops bp ap)) ∧
  (∀ f h0, (resume_heap f h0).2 = h0) ∧
  (∀ before_csv_reader after_csv_reader h0,
     ∃ res h',
       gen_list (S (length (delivered before_csv_reader)
                    + length (delivered after_csv_reader)))
                (Unstarted before_csv_reader after_csv_reader) h0 = Some (res, h') ∧
       ∀ x, x < length h0 → h' !! x = h0 !! x).
Proof.
  intros Hlb Hla. split; [|split].
  2:{ intros f h0. apply reads_only_resume_heap. }
  2:{ intros rb ra h0.
      destruct (gen_list_run_frame rb ra h0) as (res & h' & Hrun & _ & Hpres).
      by exists res, h'. }
  destruct Hla as (items_a & Hla & Hap).
  destruct (gen_list_main_loops h lb la items_a bp ap
              (S (length bp + length ap)) Hlb Hla Hap) as (ts & Hrun & Hts); [lia|].
  exists ts, h, items_a. split; [done|]. split; [done|]. split; [done|].
  split; [by exists items_a|]. done.
Qed.

(** C8 (determinism).  Two runs of [main] on the same two readers show
    the consumer the same result, triple by triple with the same ids and
    field mappings in the same order, or the same exception, in whatever
    heaps the runs start: the second may start in the heap the first one
    left, with its objects still there and changed by the consumer.  And
    two runs of the loops over the same two lists, held at different
    places of different heaps, show the same stream. *)
Theorem main_two_runs (before_csv_reader after_csv_reader : csv_reader)
    (h1 h2 : heap) :
  (∃ r, list_main_heap before_csv_reader after_csv_reader h1 = Some r ∧
        list_main_heap before_csv_reader after_csv_reader h2 = Some r) ∧
  (∀ lb1 la1 lb2 la2 bp ap,
     repr_list h1 lb1 bp → repr_list h1 la1 ap →
     repr_list h2 lb2 bp → repr_list h2 la2 ap →
     ∃ ts1 ts2 ops,
       gen_list (S (length bp + length ap))
         (Suspended {| before_products_ref := lb1; after_products_ref := la1;
                       resume_at := BeforeLoop 0 |}) h1 = Some (Ok ts1, h1) ∧
       gen_list (S (length bp + length ap))
         (Suspended {| before_products_ref := lb2; after_products_ref := la2;
                       resume_at := BeforeLoop 0 |}) h2 = Some (Ok ts2, h2) ∧
       mapM (render h1) ts1 = Some ops ∧ mapM (render h2) ts2 = Some ops).
Proof.
  split.
  - exists (list_main_from_readers before_csv_reader after_csv_reader).
    by rewrite !list_main_heap_refines.
  - intros lb1 la1 lb2 la2 bp ap Hlb1 (items1 & Hla1 & Hap1) Hlb2
      (items2 & Hla2 & Hap2).
    destruct (gen_list_main_loops h1 lb1 la1 items1 bp ap
                (S (length bp + length ap)) Hlb1 Hla1 Hap1) as (ts1 & Hrun1 & Hts1);
      [lia|].
    destruct (gen_list_main_loops h2 lb2 la2 items2 bp ap
                (S (length bp + length ap)) Hlb2 Hla2 Hap2) as (ts2 & Hrun2 & Hts2);
      [lia|].
    exists ts1, ts2, (main_loops bp ap). split; [done|]. split; [done|].
    split; by eapply yields_live_render.
Qed.

(** X1.  [convert_data_from_csv], iterating a reader in any heap, returns
    its list exactly when every row the reader delivers has a first cell
    and a cell for every header and the reader then ends; it raises
    IndexError when a delivered row lacks one of them; otherwise it raises
    what the reader itself raised after rows that all fit. *)
Theorem convert_data_from_csv_heap_cases
    (csv_products : csv_reader) (headers : list string) (h : heap) :
  match (convert_data_from_csv_heap csv_products headers h).1 with
  | Ok _ =>
      Forall (row_fits headers) (delivered csv_products) ∧
      failure csv_products = None
  | Raise e =>
      (e = IndexError ∧
       Exists (λ product, ¬ row_fits headers product) (delivered csv_products)) ∨
      (Forall (row_fits headers) (delivered csv_products) ∧
       failure csv_products = Some e)
  end.
Proof.
  destruct (convert_data_from_csv_heap_spec csv_products headers h)
    as (res & h' & -> & _ & _ & Hres). simpl.
  unfold convert_data_from_reader in Hres.
  pose proof (convert_rows_cases (delivered csv_products) headers) as Hrows.
  destruct (convert_data_from_csv (delivered csv_products) headers) as [ps|e];
    cbn [mbind result_bind] in Hres.
  - destruct (failure csv_products) as [e|].
    + subst res. by right.
    + by destruct Hres as (l & -> & _).
  - subst res. by left.
Qed.

(** X6.  With a header row delivered by both readers, [prepare_data]
    returns its two lists exactly when every further row of both readers,
    the before rows included, has a first cell and a cell for every name
    of the after header, and neither reader fails.  It raises IndexError
    when such a row is missing a cell; any other exception is the one a
    reader raised itself, the before reader's if its rows all fit, the
    after reader's if all rows fit and the before reader ended.  The
    before header plays no part. *)
Theorem prepare_data_heap_cases
    (hb : list string) (rb : list (list string)) (fb : option exn)
    (ha : list string) (ra : list (list string)) (fa : option exn) (h : heap) :
  match (prepare_data_heap {| delivered := hb :: rb; failure := fb |}
                           {| delivered := ha :: ra; failure := fa |} h).1 with
  | Ok _ => Forall (row_fits ha) (rb ++ ra) ∧ fb = None ∧ fa = None
  | Raise e =>
      (e = IndexError ∧ Exists (λ product, ¬ row_fits ha product) (rb ++ ra)) ∨
      (Forall (row_fits ha) rb ∧ fb = Some e) ∨
      (Forall (row_fits ha) (rb ++ ra) ∧ fb = None ∧ fa = Some e)
  end.
Proof.
  destruct (prepare_data_heap_spec {| delivered := hb :: rb; failure := fb |}
              {| delivered := ha :: ra; failure := fa |} h)
    as (res & h' & -> & _ & _ & Hres). simpl.
  unfold prepare_data_from_readers, next_reader, convert_data_from_reader in Hres.
  simpl in Hres.
  pose proof (convert_rows_cases rb ha) as Hb.
  pose proof (convert_rows_cases ra ha) as Ha.
  destruct (convert_data_from_csv rb ha) as [bp|e]; cbn [mbind result_bind] in Hres.
  2:{ subst res. destruct Hb as [-> Hb]. left. split; [done|].
      apply Exists_app. by left. }
  destruct fb as [e|]; cbn [mbind result_bind] in Hres.
  { subst res. right. by left. }
  destruct (convert_data_from_csv ra ha) as [ap|e]; cbn [mbind result_bind] in Hres.
  2:{ subst res. destruct Ha as [-> Ha]. left. split; [done|].
      apply Exists_app. by right. }
  destruct fa as [e|]; cbn [mbind result_bind] in Hres.
  { subst res. right. right. split; [by apply Forall_app|done]. }
  destruct Hres as (lb & la & -> & _). split; [by apply Forall_app|done].
Qed.


(** * The object-level theorems at concrete inputs *)

(** Started in an empty heap on the scenario's files, the loader builds
    [scenario_heap]. *)
Lemma scenario_heap_loaded :
  prepare_data_heap {| delivered := scenario_before_csv; failure := None |}
                    {| delivered := scenario_after_csv; failure := None |} []
  = (Ok (0, 5), scenario_heap).
Proof. vm_compute. reflexivity. Qed.

(** The second triple of the scenario is the UPDATE of product 2; its
    data is location 6, the dict of the after product at location 7.  A
    consumer that stores into it has changed that after product. *)
Lemma scenario_payload_is_live :
  gen_next (Suspended {| before_products_ref := 0; after_products_ref := 5;
                         resume_at := BeforeLoop 1 |}) scenario_heap
  = (Ok (Some (UPDATE, "2", Some 6)),
     Suspended {| before_products_ref := 0; after_products_ref := 5;
                  resume_at := BeforeLoop 2 |}, scenario_heap) ∧
  scenario_heap !! 7 = Some (ProductObj 6 "2") ∧
  (dict_setitem 6 "name" "changed" scenario_heap).2 !! 6
  = Some (DictObj {[ "id" := "2"; "name" := "changed" ]}).
Proof. repeat split; vm_compute; reflexivity. Qed.

Lemma scenario_heap_repr :
  repr_list scenario_heap 0 scenario_before ∧
  repr_list scenario_heap 5 scenario_after.
Proof.
  split; eexists; (split; [reflexivity|]);
    repeat constructor; eexists; split; reflexivity.
Defined.

Lemma scenario_heap_later_repr :
  repr_list scenario_heap_later 1 scenario_before ∧
  repr_list scenario_heap_later 6 scenario_after.
Proof.
  split; eexists; (split; [reflexivity|]);
    repeat constructor; eexists; split; reflexivity.
Defined.

Lemma main_leaves_record_sets_witness :
  (repr_list scenario_heap 0 scenario_before ∧
   repr_list scenario_heap 5 scenario_after) ∧
  ∃ ts h' after_items,
    gen_list (S (length scenario_before + length scenario_after))
      (Suspended {| before_products_ref := 0; after_products_ref := 5;
                    resume_at := BeforeLoop 0 |}) scenario_heap = Some (Ok ts, h') ∧
    h' = scenario_heap ∧
    repr_list h' 0 scenario_before ∧ repr_list h' 5 scenario_after ∧
    scenario_heap !! 5 = Some (ListObj after_items) ∧
    Forall2 (yields_live scenario_heap after_items) ts
            (main_loops scenario_before scenario_after).
Proof.
  split; [exact scenario_heap_repr|].
  exact (proj1 (main_leaves_record_sets scenario_heap 0 5
                  scenario_before scenario_after
                  (proj1 scenario_heap_repr) (proj2 scenario_heap_repr))).
Defined.

Lemma main_two_runs_witness :
  ∃ ts1 ts2 ops,
    gen_list (S (length scenario_before + length scenario_after))
      (Suspended {| before_products_ref := 0; after_products_ref := 5;
                    resume_at := BeforeLoop 0 |}) scenario_heap
    = Some (Ok ts1, scenario_heap) ∧
    gen_list (S (length scenario_before + length scenario_after))
      (Suspended {| before_products_ref := 1; after_products_ref := 6;
                    resume_at := BeforeLoop 0 |}) scenario_heap_later
    = Some (Ok ts2, scenario_heap_later) ∧
    mapM (render scenario_heap) ts1 = Some ops ∧
    mapM (render scenario_heap_later) ts2 = Some ops.
Proof.
  exact (proj2 (main_two_runs {| delivered := scenario_before_csv; failure := None |}
                  {| delivered := scenario_after_csv; failure := None |}
                  scenario_heap scenario_heap_later)
           0 5 1 6 scenario_before scenario_after
           (proj1 scenario_heap_repr) (proj2 scenario_heap_repr)
           (proj1 scenario_heap_later_repr) (proj2 scenario_heap_later_repr)).
Defined.
